(** * Chess puzzle tutor: evaluation, alpha-beta search and hint tiers

    A shallow embedding of the engine core of [src/main.py]
    ([piece_values], [evaluate_board], [minimax], [find_best_move],
    [generate_hint]) over an abstract chess-rules capability, followed by
    the properties of that code.

    The board of the rules library is one mutable object that the search
    pushes moves onto and pops moves off.  It is modelled by explicit
    state passing: every engine function is a computation over a [World],
    which holds the board (current position plus the stack of saved
    positions that [pop] restores) and a journal of the [push]/[pop]
    calls made so far.  Python exceptions are results of their own. *)

From Stdlib Require Import ZArith List String Ascii Bool Lia DecimalString.
From stdpp Require Import gmap strings list fin_maps.
Import ListNotations.

Local Open Scope Z_scope.

(* ===================================================================== *)
(** ** Scores: Python integers together with [float('inf')] *)
(* ===================================================================== *)

(** [minimax] starts its running maximum at [-float('inf')] and its running
    minimum at [float('inf')]; every other score is an [int]. *)
Inductive Score : Type :=
| NegInf
| Fin (z : Z)
| PosInf.

(** [a <= b] on Python numbers. *)
Definition score_leb (a b : Score) : bool :=
  match a, b with
  | NegInf, _ => true
  | _, PosInf => true
  | Fin x, Fin y => x <=? y
  | _, _ => false
  end.

(** [a < b] on Python numbers. *)
Definition score_ltb (a b : Score) : bool :=
  match a, b with
  | PosInf, _ => false
  | _, NegInf => false
  | Fin x, Fin y => x <? y
  | _, _ => true
  end.

(** Python's [max(a, b)]: the first argument unless the second is greater. *)
Definition py_max (a b : Score) : Score := if score_ltb a b then b else a.

(** Python's [min(a, b)]: the first argument unless the second is smaller. *)
Definition py_min (a b : Score) : Score := if score_ltb b a then b else a.

(** The order as propositions, for statements. *)
Definition sle (a b : Score) : Prop :=
  match a, b with
  | NegInf, _ => True
  | _, PosInf => True
  | Fin x, Fin y => x <= y
  | _, _ => False
  end.

Definition slt (a b : Score) : Prop :=
  match a, b with
  | PosInf, _ => False
  | _, NegInf => False
  | Fin x, Fin y => x < y
  | _, _ => True
  end.

(* ===================================================================== *)
(** ** The data of the rules capability *)
(* ===================================================================== *)

(** [chess.Color] is [bool]: [chess.WHITE = True], [chess.BLACK = False]. *)
Abbreviation Color := bool (only parsing).
Definition WHITE : Color := true.
Definition BLACK : Color := false.

(** [chess.PieceType] is [int]. *)
Abbreviation PieceType := Z (only parsing).
Definition PAWN : PieceType := 1.
Definition KNIGHT : PieceType := 2.
Definition BISHOP : PieceType := 3.
Definition ROOK : PieceType := 4.
Definition QUEEN : PieceType := 5.
Definition KING : PieceType := 6.

(** Squares are the integers 0..63 of the rules library. *)
Abbreviation Square := Z (only parsing).

Record Piece : Type := mkPiece {
  piece_type : PieceType;
  color : Color
}.

Record Move : Type := mkMove {
  from_square : Square;
  to_square : Square;
  promotion : option PieceType
}.

Inductive Termination : Type :=
| CHECKMATE
| STALEMATE
| INSUFFICIENT_MATERIAL
| SEVENTYFIVE_MOVES
| FIVEFOLD_REPETITION.

(** [chess.Outcome]: how the game ended and who won, if anybody. *)
Record Outcome : Type := mkOutcome {
  termination : Termination;
  winner : option Color
}.

(** The surface of the rules capability that the engine consumes.
    [Position] is everything the observers of the rules depend on; [make]
    is the change of position that [board.push] performs. *)
Class Rules : Type := {
  Position : Type;
  legal_moves : Position -> list Move;
  make : Position -> Move -> Position;
  is_game_over : Position -> bool;
  result : Position -> string;
  outcome : Position -> option Outcome;
  piece_map : Position -> gmap Z Piece;
  piece_at : Position -> Square -> option Piece;
  is_capture : Position -> Move -> bool;
  gives_check : Position -> Move -> bool;
  san : Position -> Move -> string;
  uci : Move -> string;
  square_name : Square -> string;
  symbol : Piece -> string
}.

(* ===================================================================== *)
(** ** Python strings: [str.lower] and [str.upper] on ASCII letters *)
(* ===================================================================== *)

Definition ascii_lower (c : ascii) : ascii :=
  let n := nat_of_ascii c in
  if ((65 <=? n)%nat && (n <=? 90)%nat)%bool then ascii_of_nat (n + 32) else c.

Definition ascii_upper (c : ascii) : ascii :=
  let n := nat_of_ascii c in
  if ((97 <=? n)%nat && (n <=? 122)%nat)%bool then ascii_of_nat (n - 32) else c.

Fixpoint str_map (f : ascii -> ascii) (s : string) : string :=
  match s with
  | EmptyString => EmptyString
  | String c s' => String (f c) (str_map f s')
  end.

Definition lower (s : string) : string := str_map ascii_lower s.
Definition upper (s : string) : string := str_map ascii_upper s.

(* ===================================================================== *)
(** ** [piece_values] *)
(* ===================================================================== *)

(** [piece_values = {chess.PAWN: 1, chess.KNIGHT: 3, chess.BISHOP: 3,
                     chess.ROOK: 5, chess.QUEEN: 9, chess.KING: 0}] *)
Definition piece_values : gmap Z Z :=
  <[PAWN := 1]> (<[KNIGHT := 3]> (<[BISHOP := 3]> (<[ROOK := 5]>
    (<[QUEEN := 9]> (<[KING := 0]> ∅))))).

(** [d.get(k, dflt)] *)
Definition dict_get (d : gmap Z Z) (k : Z) (dflt : Z) : Z :=
  default dflt (d !! k).

(** [sum(...)] over a list of integers. *)
Definition sum_Z (l : list Z) : Z := foldr Z.add 0 l.

(** [d.values()] *)
Definition dict_values {A : Type} (d : gmap Z A) : list A :=
  (map_to_list d).*2.

(* ===================================================================== *)
(** ** The mutable board, the journal and the monad of the engine *)
(* ===================================================================== *)

Inductive Exn : Type :=
| RecursionError
| IndexError
| AttributeError.

(** What the engine did to the board. *)
Inductive Op : Type :=
| OpPush (m : Move)
| OpPop.

Section Engine.

Context `{R : Rules}.

(** [chess.Board]: the current position and the stack of the positions
    saved by [push], which [pop] restores. *)
Record Board : Type := mkBoard {
  position : Position;
  saved : list Position
}.

Record World : Type := mkWorld {
  board : Board;
  ops : list Op
}.

Inductive Res (A : Type) : Type :=
| Ok (a : A) (w : World)
| Raise (e : Exn) (w : World).

Arguments Ok {A} a w.
Arguments Raise {A} e w.

Definition M (A : Type) : Type := World -> Res A.

Definition ret {A : Type} (a : A) : M A := fun w => Ok a w.

Definition bind {A B : Type} (c : M A) (k : A -> M B) : M B :=
  fun w =>
    match c w with
    | Ok a w' => k a w'
    | Raise e w' => Raise e w'
    end.

Definition raise {A : Type} (e : Exn) : M A := fun w => Raise e w.

(** Reading the board does not change it. *)
Definition observe : M Position := fun w => Ok (position (board w)) w.

(** [board.push(move)] *)
Definition push (m : Move) : M unit :=
  fun w =>
    let b := board w in
    Ok tt {| board := {| position := make (position b) m;
                         saved := position b :: saved b |};
             ops := ops w ++ [OpPush m] |}.

(** [board.pop()]; popping an empty stack is an [IndexError]. *)
Definition pop : M unit :=
  fun w =>
    match saved (board w) with
    | [] => Raise IndexError w
    | p :: rest =>
        Ok tt {| board := {| position := p; saved := rest |};
                 ops := ops w ++ [OpPop] |}
    end.

End Engine.

Arguments Ok {R A} a w.
Arguments Raise {R A} e w.

Declare Scope engine_scope.
Delimit Scope engine_scope with engine.
Notation "x <- c ;; k" := (bind c (fun x => k))
  (at level 100, c at next level, right associativity) : engine_scope.
Notation "c ;;; k" := (bind c (fun _ => k))
  (at level 100, right associativity) : engine_scope.

Local Open Scope engine_scope.

(* ===================================================================== *)
(** ** The engine of [src/main.py] *)
(* ===================================================================== *)

Section Search.

Context `{R : Rules}.

(** The term that one piece adds to the material sum:
    [piece_values.get(p.piece_type, 0) * (1 if p.color == chess.WHITE else -1)] *)
Definition material (p : Piece) : Z :=
  dict_get piece_values (piece_type p) 0 * (if Bool.eqb (color p) WHITE then 1 else -1).

(** [evaluate_board(board)] *)
Definition evaluate_board (b : Position) : Z :=
  if is_game_over b then
    if String.eqb (result b) "1-0" then 10000
    else if String.eqb (result b) "0-1" then -10000
    else 0
  else
    sum_Z (material <$> dict_values (piece_map b)).

(** The loop of the maximizing branch of [minimax]; [rec alpha beta] is the
    recursive call on the board as it stands after the push. *)
Fixpoint max_loop (rec : Score -> Score -> M Score) (moves : list Move)
    (max_eval alpha beta : Score) : M Score :=
  match moves with
  | [] => ret max_eval
  | move :: rest =>
      push move ;;;
      eval_score <- rec alpha beta ;;
      pop ;;;
      let max_eval := py_max max_eval eval_score in
      let alpha := py_max alpha eval_score in
      if score_leb beta alpha then ret max_eval
      else max_loop rec rest max_eval alpha beta
  end.

(** The loop of the minimizing branch. *)
Fixpoint min_loop (rec : Score -> Score -> M Score) (moves : list Move)
    (min_eval alpha beta : Score) : M Score :=
  match moves with
  | [] => ret min_eval
  | move :: rest =>
      push move ;;;
      eval_score <- rec alpha beta ;;
      pop ;;;
      let min_eval := py_min min_eval eval_score in
      let beta := py_min beta eval_score in
      if score_leb beta alpha then ret min_eval
      else min_loop rec rest min_eval alpha beta
  end.

(** [minimax(board, depth, alpha, beta, maximizing)].  [fuel] is the number
    of nested calls the interpreter still allows; running out of it is
    Python's [RecursionError].  [board.legal_moves] is enumerated on the
    board the loop starts with: the loop body hands the board back as it
    was before the next move is asked for. *)
Fixpoint minimax (fuel : nat) (depth : Z) (alpha beta : Score)
    (maximizing : bool) : M Score :=
  match fuel with
  | O => raise RecursionError
  | S fuel' =>
      b <- observe ;;
      if (depth =? 0) || is_game_over b then ret (Fin (evaluate_board b))
      else if maximizing then
        max_loop (fun a bt => minimax fuel' (depth - 1) a bt false)
                 (legal_moves b) NegInf alpha beta
      else
        min_loop (fun a bt => minimax fuel' (depth - 1) a bt true)
                 (legal_moves b) PosInf alpha beta
  end.

(** The loop of [find_best_move] over [list(board.legal_moves)]. *)
Fixpoint root_loop (fuel : nat) (depth : Z) (moves : list Move)
    (best_move : option Move) (best_value : Score) : M (option Move) :=
  match moves with
  | [] => ret best_move
  | move :: rest =>
      push move ;;;
      value <- minimax fuel (depth - 1) NegInf PosInf false ;;
      pop ;;;
      if score_ltb best_value value
      then root_loop fuel depth rest (Some move) value
      else root_loop fuel depth rest best_move best_value
  end.

(** [find_best_move(board, depth)] *)
Definition find_best_move (fuel : nat) (depth : Z) : M (option Move) :=
  b <- observe ;;
  root_loop fuel depth (legal_moves b) None NegInf.

(** The truth value of [outcome and outcome.winner]. *)
Definition outcome_and_winner (o : option Outcome) : bool :=
  match o with
  | None => false
  | Some oc =>
      match winner oc with
      | None => false
      | Some c => c
      end
  end.

(** [piece.symbol()] where [piece] may be [None]. *)
Definition symbol_of (piece : option Piece) : M string :=
  match piece with
  | None => raise AttributeError
  | Some p => ret (symbol p)
  end.

(** [generate_hint(board, best_move, level)]; [best_move] is what
    [find_best_move] returned, so it may be [None]. *)
Definition generate_hint (best_move : option Move) (level : Z) : M string :=
  match best_move with
  | None => raise AttributeError
  | Some mv =>
      b <- observe ;;
      let piece := piece_at b (from_square mv) in
      let from_sq := square_name (from_square mv) in
      let to_sq := square_name (to_square mv) in
      if level =? 1 then
        s <- symbol_of piece ;;
        ret ("Try moving your " +:+ lower s +:+ " from " +:+ from_sq +:+ ".")
      else if level =? 2 then
        s <- symbol_of piece ;;
        ret (upper s +:+ from_sq +:+ " to " +:+ to_sq +:+ " â€“ " +:+
             (if is_capture b mv then "captures!"
              else if gives_check b mv then "checks!"
              else "good move"))
      else
        let san_text := san b mv in
        push mv ;;;
        after <- observe ;;
        let oc := outcome after in
        pop ;;;
        ret ("Solution: " +:+ san_text +:+ " (" +:+ uci mv +:+ "). " +:+
             (if outcome_and_winner oc then "Mate!" else "Winning line!"))
  end.

End Search.

(* ===================================================================== *)
(** ** Reference notions the properties are stated against *)
(* ===================================================================== *)

Section Reference.

Context `{R : Rules}.

Definition max_scores (l : list Score) : Score := foldr py_max NegInf l.
Definition min_scores (l : list Score) : Score := foldr py_min PosInf l.

(** Exhaustive minimax: the same base case, and at an inner node the
    maximum (for the maximizing side) or minimum (for the minimizing side)
    over all legal moves, none skipped. *)
Fixpoint exhaustive (depth : nat) (b : Position) (maximizing : bool) : Score :=
  match depth with
  | O => Fin (evaluate_board b)
  | S d =>
      if is_game_over b then Fin (evaluate_board b)
      else if maximizing then
        max_scores ((fun mv => exhaustive d (make b mv) false) <$> legal_moves b)
      else
        min_scores ((fun mv => exhaustive d (make b mv) true) <$> legal_moves b)
  end.

(** The first of the moves whose score is strictly greater than the best so
    far. *)
Fixpoint first_strictly_best (score : Move -> Score) (moves : list Move)
    (best_move : option Move) (best_value : Score) : option Move :=
  match moves with
  | [] => best_move
  | mv :: rest =>
      if score_ltb best_value (score mv)
      then first_strictly_best score rest (Some mv) (score mv)
      else first_strictly_best score rest best_move best_value
  end.

(** The root decision taken with exhaustive minimax: each legal move is
    scored by exhaustive search of the position it leads to, one ply less
    and with the opponent minimizing. *)
Definition find_best_move_exhaustive (depth : nat) (b : Position) : option Move :=
  first_strictly_best (fun mv => exhaustive (depth - 1) (make b mv) false)
                      (legal_moves b) None NegInf.

(** The world after the engine did [t] to the board and left it as it was. *)
Definition journal (w : World) (t : list Op) : World :=
  {| board := board w; ops := ops w ++ t |}.

(** The board after [board.push(mv)]. *)
Definition pushed (b : Board) (mv : Move) : Board :=
  {| position := make (position b) mv; saved := position b :: saved b |}.

(** Journals in which every push is undone by the pop that follows the
    pushes and pops nested in it. *)
Inductive balanced : list Op -> Prop :=
| balanced_nil : balanced []
| balanced_cons (mv : Move) (t1 t2 : list Op) :
    balanced t1 -> balanced t2 -> balanced (OpPush mv :: t1 ++ OpPop :: t2).

(** The value a search returns for the window [(alpha, beta)] against the
    exact value [e]: exact inside the window, a bound outside. *)
Definition bracket (alpha beta v e : Score) : Prop :=
  (sle v alpha -> sle e v) /\
  (sle beta v -> sle v e) /\
  (slt alpha v -> slt v beta -> sle e v /\ sle v e).

(** The state of a maximizing loop that has [max_eval] and [alpha] in hand
    and returns [v], against the exact maximum [e] of the moves it still
    had to try. *)
Definition max_post (max_eval alpha beta e v : Score) : Prop :=
  sle max_eval v /\ bracket alpha beta v e.

Definition min_post (min_eval alpha beta e v : Score) : Prop :=
  sle v min_eval /\ bracket alpha beta v e.

(** The minimizing side is the maximizing side with every score negated. *)
Definition negate (s : Score) : Score :=
  match s with
  | NegInf => PosInf
  | Fin z => Fin (- z)
  | PosInf => NegInf
  end.

(** An order embedding of finitely many scores into the integers: the
    infinities go to bounds [lo] and [hi] that enclose the finite ones. *)
Definition emb (lo hi : Z) (s : Score) : Z :=
  match s with
  | NegInf => lo
  | Fin z => z
  | PosInf => hi
  end.

Definition fits (lo hi : Z) (s : Score) : Prop :=
  match s with
  | Fin z => lo < z < hi
  | _ => True
  end.

(** The world right after [board.push(mv)]. *)
Definition pushed_world (w : World) (mv : Move) : World :=
  {| board := pushed (board w) mv; ops := ops w ++ [OpPush mv] |}.

(** [c] returns from [w] a value satisfying [P], with the board as it was
    and every push undone. *)
Definition framed {A : Type} (c : M A) (w : World) (P : A -> Prop) : Prop :=
  exists v t, c w = Ok v (journal w t) /\ balanced t /\ P v.

(** No condition on the value returned. *)
Definition anything {A : Type} (_ : A) : Prop := True.

(** A computation returns [v] from [w]. *)
Definition returns {A : Type} (c : M A) (w : World) (v : A) : Prop :=
  exists w', c w = Ok v w'.

(** The score of one root move: make, [minimax(depth-1, -inf, +inf,
    maximizing=False)], unmake. *)
Definition one_ply_score (fuel : nat) (depth : Z) (mv : Move) : M Score :=
  push mv ;;;
  value <- minimax fuel (depth - 1) NegInf PosInf false ;;
  pop ;;;
  ret value.

(** Color mirroring of a piece, of a square (the rank is flipped) and of a
    result string. *)
Definition mirror_piece (p : Piece) : Piece :=
  {| piece_type := piece_type p; color := negb (color p) |}.

Definition square_mirror (sq : Square) : Square := Z.lxor sq 56.

Definition mirror_result (s : string) : string :=
  if String.eqb s "1-0" then "0-1"
  else if String.eqb s "0-1" then "1-0"
  else s.

(** [b'] is the color-mirrored counterpart of [b]: the same pieces with
    colors swapped on the vertically flipped squares, and with it the same
    game state seen from the other side. *)
Definition color_mirror (b b' : Position) : Prop :=
  is_game_over b' = is_game_over b /\
  result b' = mirror_result (result b) /\
  piece_map b' = kmap square_mirror (mirror_piece <$> piece_map b).

(** How many pieces of kind [k] and color [c] a list has. *)
Definition count_in (l : list Piece) (k : PieceType) (c : Color) : Z :=
  Z.of_nat (length (filter (fun p => piece_type p = k /\ color p = c) l)).

(** The material sum, kind by kind. *)
Definition weighted (l : list Piece) : Z :=
  1 * (count_in l PAWN WHITE - count_in l PAWN BLACK)
  + 3 * (count_in l KNIGHT WHITE - count_in l KNIGHT BLACK)
  + 3 * (count_in l BISHOP WHITE - count_in l BISHOP BLACK)
  + 5 * (count_in l ROOK WHITE - count_in l ROOK BLACK)
  + 9 * (count_in l QUEEN WHITE - count_in l QUEEN BLACK)
  + 0 * (count_in l KING WHITE - count_in l KING BLACK).

(** How many pieces of kind [k] and color [c] a position has. *)
Definition count_pieces (b : Position) (k : PieceType) (c : Color) : Z :=
  count_in (dict_values (piece_map b)) k c.

(** Rules in which a position without legal moves is over (checkmate or
    stalemate). *)
Definition no_moves_is_over : Prop :=
  forall b : Position, legal_moves b = [] -> is_game_over b = true.

(** Every line of play from [b] is over after at most [h] plies. *)
Fixpoint ends_within (h : nat) (b : Position) : bool :=
  is_game_over b ||
  match h with
  | O => false
  | S h' => forallb (fun mv => ends_within h' (make b mv)) (legal_moves b)
  end.

(** The text of the full disclosure. *)
Definition solution_text (b : Position) (mv : Move) : string :=
  "Solution: " +:+ san b mv +:+ " (" +:+ uci mv +:+ "). " +:+
  (if outcome_and_winner (outcome (make b mv)) then "Mate!" else "Winning line!").

End Reference.

(** What the rules library derives from an outcome: [Outcome.result()], and
    ["*"] while the game goes on. *)
Definition outcome_result (o : option Outcome) : string :=
  match o with
  | None => "*"
  | Some oc =>
      match winner oc with
      | None => "1/2-1/2"
      | Some c => if c then "1-0" else "0-1"
      end
  end.

(** Rules whose [is_game_over] and [result] are read off [outcome], as the
    rules library defines them. *)
Definition results_agree `{R : Rules} : Prop :=
  forall b : Position,
    is_game_over b = match outcome b with Some _ => true | None => false end /\
    result b = outcome_result (outcome b).

(** What a run returned, and what it raised. *)
Definition returned {R : Rules} {A : Type} (r : Res A) : option A :=
  match r with
  | Ok a _ => Some a
  | Raise _ _ => None
  end.

Definition raised {R : Rules} {A : Type} (r : Res A) : option Exn :=
  match r with
  | Ok _ _ => None
  | Raise e _ => Some e
  end.


(* ===================================================================== *)
(** ** A finite rules capability: positions as explicit game trees *)
(* ===================================================================== *)

Module Tree.

(** What a node knows of its position: the outcome the rules assign when
    the game ended there, the pieces, the notation of its moves and which
    of them give check. *)
Record Info : Type := mkInfo {
  ended : option Outcome;
  pieces : list (Z * Piece);
  notation : list (Move * string);
  checking : list Move
}.

#[local] Unset Elimination Schemes.
Inductive GameTree : Type :=
| GNode (info : Info) (kids : list (Move * GameTree)).
#[local] Set Elimination Schemes.

Definition info_of (t : GameTree) : Info :=
  match t with GNode i _ => i end.

Definition kids_of (t : GameTree) : list (Move * GameTree) :=
  match t with GNode _ k => k end.

Definition option_Z_eqb (a b : option Z) : bool :=
  match a, b with
  | None, None => true
  | Some x, Some y => x =? y
  | _, _ => false
  end.

Definition move_eqb (a b : Move) : bool :=
  (from_square a =? from_square b) && (to_square a =? to_square b)
  && option_Z_eqb (promotion a) (promotion b).

Fixpoint assoc {A : Type} (mv : Move) (l : list (Move * A)) : option A :=
  match l with
  | [] => None
  | (m, a) :: rest => if move_eqb m mv then Some a else assoc mv rest
  end.

Definition tree_legal_moves (t : GameTree) : list Move := (kids_of t).*1.

(** A move that is not legal leaves the tree where it is. *)
Definition tree_make (t : GameTree) (mv : Move) : GameTree :=
  default t (assoc mv (kids_of t)).

(** As in the rules library: the game is over with the stored outcome, or
    by stalemate when no move is left. *)
Definition tree_outcome (t : GameTree) : option Outcome :=
  match ended (info_of t) with
  | Some oc => Some oc
  | None =>
      match kids_of t with
      | [] => Some {| termination := STALEMATE; winner := None |}
      | _ => None
      end
  end.

Definition tree_is_game_over (t : GameTree) : bool :=
  match tree_outcome t with Some _ => true | None => false end.

Definition tree_result (t : GameTree) : string :=
  match tree_outcome t with
  | None => "*"
  | Some oc =>
      match winner oc with
      | None => "1/2-1/2"
      | Some c => if c then "1-0" else "0-1"
      end
  end.

Definition tree_piece_map (t : GameTree) : gmap Z Piece :=
  list_to_map (pieces (info_of t)).

Definition tree_piece_at (t : GameTree) (sq : Square) : option Piece :=
  tree_piece_map t !! sq.

(** A capture lands on a piece of the other color. *)
Definition tree_is_capture (t : GameTree) (mv : Move) : bool :=
  match tree_piece_at t (from_square mv), tree_piece_at t (to_square mv) with
  | Some p, Some q => negb (Bool.eqb (color p) (color q))
  | _, _ => false
  end.

Definition tree_gives_check (t : GameTree) (mv : Move) : bool :=
  existsb (move_eqb mv) (checking (info_of t)).

Definition tree_san (t : GameTree) (mv : Move) : string :=
  default "--" (assoc mv (notation (info_of t))).

Definition tree_square_name (sq : Square) : string :=
  String (ascii_of_nat (97 + Z.to_nat (Z.land sq 7)))
    (String (ascii_of_nat (49 + Z.to_nat (Z.shiftr sq 3))) EmptyString).

Definition type_letter (k : PieceType) : string :=
  if k =? PAWN then "p"
  else if k =? KNIGHT then "n"
  else if k =? BISHOP then "b"
  else if k =? ROOK then "r"
  else if k =? QUEEN then "q"
  else "k".

Definition tree_symbol (p : Piece) : string :=
  if color p then upper (type_letter (piece_type p)) else type_letter (piece_type p).

Definition tree_uci (mv : Move) : string :=
  tree_square_name (from_square mv) +:+ tree_square_name (to_square mv) +:+
  match promotion mv with
  | Some k => type_letter k
  | None => EmptyString
  end.

#[export] Instance tree_rules : Rules := {|
  Position := GameTree;
  legal_moves := tree_legal_moves;
  make := tree_make;
  is_game_over := tree_is_game_over;
  result := tree_result;
  outcome := tree_outcome;
  piece_map := tree_piece_map;
  piece_at := tree_piece_at;
  is_capture := tree_is_capture;
  gives_check := tree_gives_check;
  san := tree_san;
  uci := tree_uci;
  square_name := tree_square_name;
  symbol := tree_symbol
|}.

(** A fresh board on a position: nothing pushed, nothing journalled. *)
Definition fresh (t : GameTree) : World :=
  {| board := {| position := t; saved := [] |}; ops := [] |}.

Definition mv (from to : Z) : Move :=
  {| from_square := from; to_square := to; promotion := None |}.

Definition place (c : Color) (k : PieceType) (squares : list Z) : list (Z * Piece) :=
  (fun sq => (sq, {| piece_type := k; color := c |})) <$> squares.

Definition mated_by (c : Color) : option Outcome :=
  Some {| termination := CHECKMATE; winner := Some c |}.

(** Color mirroring of a tree: pieces, moves, notation and outcomes. *)
Definition mirror_move (m : Move) : Move :=
  {| from_square := square_mirror (from_square m);
     to_square := square_mirror (to_square m);
     promotion := promotion m |}.

Definition mirror_digit (c : ascii) : ascii :=
  let n := nat_of_ascii c in
  if ((49 <=? n)%nat && (n <=? 56)%nat)%bool then ascii_of_nat (105 - n) else c.

Definition mirror_outcome (oc : Outcome) : Outcome :=
  {| termination := termination oc; winner := negb <$> winner oc |}.

Definition mirror_info (i : Info) : Info :=
  {| ended := mirror_outcome <$> ended i;
     pieces := (fun e => (square_mirror e.1, mirror_piece e.2)) <$> pieces i;
     notation := (fun e => (mirror_move e.1, str_map mirror_digit e.2)) <$> notation i;
     checking := mirror_move <$> checking i |}.

Fixpoint mirror_tree (t : GameTree) : GameTree :=
  match t with
  | GNode i k =>
      GNode (mirror_info i) ((fun e => (mirror_move e.1, mirror_tree e.2)) <$> k)
  end.

(** The trees below keep a few lines of play, each up to the end of the
    game.  The moves a node lists are the legal moves of this capability,
    a part of the legal moves of chess. *)

(** *** King and queen against king, White to move

    White: Kg6, Qb7.  Black: Kg8.  Qg7 mates at once.  After Kh6 Black has
    Kf8 and Kh8.  After Kh8, Qf7 stalemates and Qg7 mates; after Kf8, the
    queen can be given away by Qe7, Kxe7. *)

Definition kq_pieces (wk wq bk : Z) : list (Z * Piece) :=
  place WHITE KING [wk] ++ place WHITE QUEEN [wq] ++ place BLACK KING [bk].

Definition drawn_by (how : Termination) : option Outcome :=
  Some {| termination := how; winner := None |}.

Definition Qg7 : Move := mv 49 54.
Definition Kh6 : Move := mv 46 47.
Definition Kf8 : Move := mv 62 61.
Definition Kh8 : Move := mv 62 63.
Definition Qf7 : Move := mv 49 53.
Definition Qe7 : Move := mv 49 52.
Definition Kxe7 : Move := mv 61 52.

Definition after_Qg7 : GameTree :=
  GNode {| ended := mated_by WHITE; pieces := kq_pieces 46 54 62;
           notation := []; checking := [] |} [].

Definition bare_kings : GameTree :=
  GNode {| ended := drawn_by INSUFFICIENT_MATERIAL;
           pieces := place WHITE KING [47] ++ place BLACK KING [52];
           notation := []; checking := [] |} [].

Definition after_Qe7 : GameTree :=
  GNode {| ended := None; pieces := kq_pieces 47 52 61;
           notation := [(Kxe7, "Kxe7")]; checking := [] |}
        [(Kxe7, bare_kings)].

Definition after_Kf8 : GameTree :=
  GNode {| ended := None; pieces := kq_pieces 47 49 61;
           notation := [(Qe7, "Qe7+")]; checking := [Qe7] |}
        [(Qe7, after_Qe7)].

Definition after_Qf7 : GameTree :=
  GNode {| ended := drawn_by STALEMATE; pieces := kq_pieces 47 53 63;
           notation := []; checking := [] |} [].

Definition after_Kh8_Qg7 : GameTree :=
  GNode {| ended := mated_by WHITE; pieces := kq_pieces 47 54 63;
           notation := []; checking := [] |} [].

Definition after_Kh8 : GameTree :=
  GNode {| ended := None; pieces := kq_pieces 47 49 63;
           notation := [(Qf7, "Qf7"); (Qg7, "Qg7#")]; checking := [Qg7] |}
        [(Qf7, after_Qf7); (Qg7, after_Kh8_Qg7)].

Definition after_Kh6 : GameTree :=
  GNode {| ended := None; pieces := kq_pieces 47 49 62;
           notation := [(Kf8, "Kf8"); (Kh8, "Kh8")]; checking := [] |}
        [(Kf8, after_Kf8); (Kh8, after_Kh8)].

Definition kq_start : GameTree :=
  GNode {| ended := None; pieces := kq_pieces 46 49 62;
           notation := [(Kh6, "Kh6"); (Qg7, "Qg7#")]; checking := [Qg7] |}
        [(Kh6, after_Kh6); (Qg7, after_Qg7)].

(** *** The same ending with colors swapped, Black to move

    Black: Kg3, Qb2.  White: Kg1.  Qg2 mates. *)

Definition qk_start : GameTree := mirror_tree kq_start.

Definition Qg2 : Move := mirror_move Qg7.

(** *** A queen to be taken: White Kh1, Black Qg1 and Ka8, White to move

    White is in check and has one legal move, Kxg1, after which only the
    kings are left and the game is drawn. *)

Definition Kxg1 : Move := mv 7 6.

Definition kings_left : GameTree :=
  GNode {| ended := drawn_by INSUFFICIENT_MATERIAL;
           pieces := place WHITE KING [6] ++ place BLACK KING [56];
           notation := []; checking := [] |} [].

Definition queen_en_prise : GameTree :=
  GNode {| ended := None;
           pieces := place WHITE KING [7] ++ place BLACK QUEEN [6] ++
                     place BLACK KING [56];
           notation := [(Kxg1, "Kxg1")]; checking := [] |}
        [(Kxg1, kings_left)].

(** *** Fool's mate: after 1.f3 e5 2.g4, Black to move, Qh4 mates *)

Definition fools_white : list (Z * Piece) :=
  place WHITE ROOK [0; 7] ++ place WHITE KNIGHT [1; 6] ++
  place WHITE BISHOP [2; 5] ++ place WHITE QUEEN [3] ++ place WHITE KING [4] ++
  place WHITE PAWN [8; 9; 10; 11; 12; 21; 30; 15].

Definition fools_black (queen : Z) : list (Z * Piece) :=
  place BLACK ROOK [56; 63] ++ place BLACK KNIGHT [57; 62] ++
  place BLACK BISHOP [58; 61] ++ place BLACK QUEEN [queen] ++
  place BLACK KING [60] ++ place BLACK PAWN [48; 49; 50; 51; 36; 53; 54; 55].

Definition Qh4 : Move := mv 59 31.

Definition after_Qh4 : GameTree :=
  GNode {| ended := mated_by BLACK; pieces := fools_white ++ fools_black 31;
           notation := []; checking := [] |} [].

Definition fools_mate : GameTree :=
  GNode {| ended := None; pieces := fools_white ++ fools_black 59;
           notation := [(Qh4, "Qh4#")]; checking := [Qh4] |}
        [(Qh4, after_Qh4)].

End Tree.

(* ===================================================================== *)
(** ** The handler of the hint route *)
(* ===================================================================== *)





Section Handler.

Context `{R : Rules}.

(** [chess.Board(fen)], [None] when it raises [ValueError];
    [chess.svg.board(board=board, size=400)]; and the formatting of a score
    by [f"{eval_score / 100:.2f}"], which is floating point. *)
Variable board_of_fen : string -> option Position.
Variable board_svg : Position -> string.
Variable format_eval : Score -> string.





(** The board after the moves [ms] were pushed one after the other. *)
Definition push_all (b : Board) (ms : list Move) : Board := fold_left pushed ms b.

(** A computation that either returns with the board as it was, or fails
    on the recursion limit with [n] moves left on the board. *)
Definition stranded {A : Type} (n : nat) (c : M A) (w : World) : Prop :=
  (exists v t, c w = Ok v (journal w t) /\ balanced t) \/
  (exists ms w',
      c w = Raise RecursionError w' /\ length ms = n /\
      board w' = push_all (board w) ms).

End Handler.

(** Scores that are integers. *)
Definition finite (s : Score) : Prop := exists z, s = Fin z.

Module TreeFen.




End TreeFen.

(* ===================================================================== *)
(** ** The order on scores *)
(* ===================================================================== *)

(** Small facts go by cases on the scores and on the integer tests. *)
Ltac split_scores :=
  repeat match goal with
         | x : Score |- _ => destruct x
         end;
  unfold py_max, py_min in *; simpl in *.

Ltac split_tests :=
  repeat match goal with
         | |- context [Z.ltb ?x ?y] => destruct (Z.ltb_spec x y); simpl in *
         | |- context [Z.leb ?x ?y] => destruct (Z.leb_spec x y); simpl in *
         | H : context [Z.ltb ?x ?y] |- _ => destruct (Z.ltb_spec x y); simpl in *
         | H : context [Z.leb ?x ?y] |- _ => destruct (Z.leb_spec x y); simpl in *
         end.

Ltac score_order :=
  intros; split_scores; split_tests;
  try tauto; try discriminate; try lia; try (intuition (try discriminate; lia)).

Lemma score_leb_sle (a b : Score) : score_leb a b = true <-> sle a b.
Proof. destruct a, b; simpl; rewrite ?Z.leb_le; intuition discriminate. Qed.

Lemma score_ltb_slt (a b : Score) : score_ltb a b = true <-> slt a b.
Proof. destruct a, b; simpl; rewrite ?Z.ltb_lt; intuition discriminate. Qed.

Lemma score_leb_false (a b : Score) : score_leb a b = false <-> slt b a.
Proof. destruct a, b; simpl; rewrite ?Z.leb_gt; intuition discriminate. Qed.

Lemma score_ltb_false (a b : Score) : score_ltb a b = false <-> sle b a.
Proof. destruct a, b; simpl; rewrite ?Z.ltb_ge; intuition discriminate. Qed.

Lemma sle_refl (a : Score) : sle a a.
Proof. score_order. Qed.

Lemma sle_antisym (a b : Score) : sle a b -> sle b a -> a = b.
Proof. destruct a, b; simpl; try tauto. intros; f_equal; lia. Qed.

Lemma slt_sle (a b : Score) : slt a b -> sle a b.
Proof. score_order. Qed.

Lemma max_post_done (m a b : Score) :
  slt a b -> sle m a -> max_post m a b NegInf m.
Proof. unfold max_post, bracket. score_order. Qed.

Lemma fits_widen (lo hi lo' hi' : Z) (s : Score) :
  lo' <= lo -> hi <= hi' -> fits lo hi s -> fits lo' hi' s.
Proof. destruct s; simpl; lia. Qed.

Lemma fits_exists (l : list Score) :
  exists lo hi, lo < hi /\ Forall (fits lo hi) l.
Proof.
  induction l as [|s l (lo & hi & Hlh & Hl)].
  - exists 0, 1. split; [lia | constructor].
  - exists (Z.min lo (emb lo hi s - 1)), (Z.max hi (emb lo hi s + 1)).
    split; [lia |]. constructor.
    + destruct s; simpl; lia.
    + eapply Forall_impl; [exact Hl |]. intros t. apply fits_widen; lia.
Qed.

Section Embedding.

Variables lo hi : Z.
Hypothesis lo_hi : lo < hi.

Lemma sle_emb (a b : Score) :
  fits lo hi a -> fits lo hi b -> (sle a b <-> emb lo hi a <= emb lo hi b).
Proof. destruct a, b; simpl; lia. Qed.

Lemma slt_emb (a b : Score) :
  fits lo hi a -> fits lo hi b -> (slt a b <-> emb lo hi a < emb lo hi b).
Proof. destruct a, b; simpl; lia. Qed.

Lemma fits_py_max (a b : Score) :
  fits lo hi a -> fits lo hi b -> fits lo hi (py_max a b).
Proof. unfold py_max. now destruct (score_ltb a b). Qed.

Lemma emb_py_max (a b : Score) :
  fits lo hi a -> fits lo hi b ->
  emb lo hi (py_max a b) = Z.max (emb lo hi a) (emb lo hi b).
Proof.
  intros Ha Hb. unfold py_max. destruct (score_ltb a b) eqn:Hlt.
  - apply score_ltb_slt, slt_emb in Hlt; auto. lia.
  - apply score_ltb_false, sle_emb in Hlt; auto. lia.
Qed.

End Embedding.

(** Facts about many scores at once: embed the scores of [l] into the
    integers, where the order and [py_max] become [<=], [<] and [Z.max]. *)
Ltac embed_scores l :=
  let lo := fresh "lo" in
  let hi := fresh "hi" in
  let Hlh := fresh "Hlh" in
  let Hfit := fresh "Hfit" in
  destruct (fits_exists l) as (lo & hi & Hlh & Hfit);
  repeat match goal with
         | H : Forall _ (_ :: _) |- _ =>
             apply Forall_cons in H; destruct H as [? H]
         end;
  clear Hfit;
  repeat match goal with
         | H : context [sle _ _] |- _ =>
             rewrite (sle_emb lo hi Hlh) in H by auto using fits_py_max
         | H : context [slt _ _] |- _ =>
             rewrite (slt_emb lo hi Hlh) in H by auto using fits_py_max
         | |- context [sle _ _] =>
             rewrite (sle_emb lo hi Hlh) by auto using fits_py_max
         | |- context [slt _ _] =>
             rewrite (slt_emb lo hi Hlh) by auto using fits_py_max
         end;
  rewrite ?(emb_py_max lo hi Hlh) in * by auto using fits_py_max.

Lemma max_post_break (m a b v1 e1 er : Score) :
  slt a b -> sle m a -> bracket a b v1 e1 ->
  sle b (py_max a v1) ->
  max_post m a b (py_max e1 er) (py_max m v1).
Proof.
  unfold max_post, bracket. intros Hab Hma Hbr Hcut.
  embed_scores [m; a; b; v1; e1; er]. lia.
Qed.

Lemma max_post_next (m a b v1 e1 er v : Score) :
  slt a b -> sle m a -> bracket a b v1 e1 ->
  max_post (py_max m v1) (py_max a v1) b er v ->
  max_post m a b (py_max e1 er) v.
Proof.
  unfold max_post, bracket. intros Hab Hma Hbr Hrest.
  embed_scores [m; a; b; v1; e1; er; v]. lia.
Qed.

Lemma negate_py_min (a b : Score) :
  negate (py_min a b) = py_max (negate a) (negate b).
Proof. destruct a, b; unfold py_min, py_max; simpl; split_tests; try reflexivity; lia. Qed.

Lemma sle_negate (a b : Score) : sle (negate a) (negate b) <-> sle b a.
Proof. destruct a, b; simpl; intuition lia. Qed.

Lemma slt_negate (a b : Score) : slt (negate a) (negate b) <-> slt b a.
Proof. destruct a, b; simpl; intuition lia. Qed.

Lemma bracket_negate (a b v e : Score) :
  bracket (negate b) (negate a) (negate v) (negate e) <-> bracket a b v e.
Proof. unfold bracket. rewrite !sle_negate, !slt_negate. tauto. Qed.

Lemma min_post_negate (m a b e v : Score) :
  max_post (negate m) (negate b) (negate a) (negate e) (negate v) <->
  min_post m a b e v.
Proof. unfold max_post, min_post. rewrite bracket_negate, sle_negate. tauto. Qed.

Lemma min_post_done (m a b : Score) :
  slt a b -> sle b m -> min_post m a b PosInf m.
Proof.
  intros Hab Hbm. apply min_post_negate. apply max_post_done.
  - now apply slt_negate.
  - now apply sle_negate.
Qed.

Lemma min_post_break (m a b v1 e1 er : Score) :
  slt a b -> sle b m -> bracket a b v1 e1 ->
  sle (py_min b v1) a ->
  min_post m a b (py_min e1 er) (py_min m v1).
Proof.
  intros Hab Hbm Hbr Hcut. apply min_post_negate. rewrite !negate_py_min.
  apply max_post_break.
  - now apply slt_negate.
  - now apply sle_negate.
  - now apply bracket_negate.
  - rewrite <- negate_py_min. now apply sle_negate.
Qed.

Lemma min_post_next (m a b v1 e1 er v : Score) :
  slt a b -> sle b m -> bracket a b v1 e1 ->
  min_post (py_min m v1) a (py_min b v1) er v ->
  min_post m a b (py_min e1 er) v.
Proof.
  intros Hab Hbm Hbr Hrest. apply min_post_negate. rewrite negate_py_min.
  apply max_post_next with (v1 := negate v1).
  - now apply slt_negate.
  - now apply sle_negate.
  - now apply bracket_negate.
  - rewrite <- !negate_py_min. now apply min_post_negate.
Qed.

Lemma py_max_mono (m a v : Score) : sle m a -> sle (py_max m v) (py_max a v).
Proof. score_order. Qed.

Lemma py_min_mono (m b v : Score) : sle b m -> sle (py_min b v) (py_min m v).
Proof. score_order. Qed.

Lemma bracket_full (v e : Score) : bracket NegInf PosInf v e -> v = e.
Proof.
  unfold bracket. intros (Hlo & Hhi & Hmid).
  destruct v; simpl in *.
  - apply sle_antisym; [exact I | now apply Hlo].
  - destruct (Hmid I I). now apply sle_antisym.
  - apply sle_antisym; [now apply Hhi | destruct e; exact I].
Qed.

Lemma bracket_exact (a b v : Score) : bracket a b v v.
Proof. unfold bracket. repeat split; intros; apply sle_refl. Qed.

(* ===================================================================== *)
(** ** Journals and the make/unmake step *)
(* ===================================================================== *)

Lemma balanced_app (t1 t2 : list Op) :
  balanced t1 -> balanced t2 -> balanced (t1 ++ t2).
Proof.
  induction 1 as [|mv u1 u2 Hu1 IH1 Hu2 IH2]; intros Ht2; simpl.
  - exact Ht2.
  - rewrite <- app_assoc. simpl. constructor; auto.
Qed.

Lemma balanced_step (mv : Move) (t : list Op) :
  balanced t -> balanced (OpPush mv :: t ++ [OpPop]).
Proof. intros Ht. apply (balanced_cons mv t []); [exact Ht | constructor]. Qed.

Section Frame.

Context `{R : Rules}.

Lemma journal_nil (w : World) : journal w [] = w.
Proof. destruct w as [b o]. unfold journal. simpl. now rewrite app_nil_r. Qed.

Lemma journal_journal (w : World) (t1 t2 : list Op) :
  journal (journal w t1) t2 = journal w (t1 ++ t2).
Proof. unfold journal. simpl. now rewrite app_assoc. Qed.

Lemma pushed_position (w : World) (mv : Move) :
  position (board (pushed_world w mv)) = make (position (board w)) mv.
Proof. reflexivity. Qed.

(** One ply of make, descend, unmake: when the descent hands the pushed
    board back, the pop restores the board of before the push. *)
Lemma make_unmake {A B : Type} (w : World) (mv : Move) (c : M A)
    (k : A -> M B) (v : A) (t : list Op) :
  c (pushed_world w mv) = Ok v (journal (pushed_world w mv) t) ->
  (push mv ;;; x <- c ;; pop ;;; k x) w
  = k v (journal w (OpPush mv :: t ++ [OpPop])).
Proof.
  intros Hc. unfold bind at 1. unfold push. fold (pushed (board w) mv).
  fold (pushed_world w mv). unfold bind at 1. rewrite Hc.
  unfold bind, pop. simpl. f_equal.
  destruct w as [[p s] o]. unfold journal. simpl. f_equal.
  rewrite <- !app_assoc. reflexivity.
Qed.

End Frame.

(* ===================================================================== *)
(** ** Alpha-beta against exhaustive search *)
(* ===================================================================== *)

Section Pruning.

Context `{R : Rules}.

Lemma framed_ret {A : Type} (a : A) (w : World) (P : A -> Prop) :
  P a -> framed (ret a) w P.
Proof.
  intros Ha. exists a, []. rewrite journal_nil.
  split; [reflexivity | split; [constructor | exact Ha]].
Qed.

Lemma framed_weaken {A : Type} (c : M A) (w : World) (P Q : A -> Prop) :
  (forall v, P v -> Q v) -> framed c w P -> framed c w Q.
Proof. intros HPQ (v & t & Hc & Ht & Hv). exists v, t. auto. Qed.

Lemma framed_observe {A : Type} (k : Position -> M A) (w : World) (P : A -> Prop) :
  framed (k (position (board w))) w P -> framed (b <- observe ;; k b) w P.
Proof. exact (fun H => H). Qed.

(** A make/unmake ply around a framed descent, followed by a framed rest. *)
Lemma framed_ply {A B : Type} (w : World) (mv : Move) (c : M A)
    (k : A -> M B) (P : A -> Prop) (Q : B -> Prop) :
  framed c (pushed_world w mv) P ->
  (forall v w', position (board w') = position (board w) -> P v -> framed (k v) w' Q) ->
  framed (push mv ;;; x <- c ;; pop ;;; k x) w Q.
Proof.
  intros (v & t & Hc & Ht & Hv) Hk.
  destruct (Hk v (journal w (OpPush mv :: t ++ [OpPop])) eq_refl Hv)
    as (r & t' & Hr & Ht' & Hq).
  exists r, ((OpPush mv :: t ++ [OpPop]) ++ t').
  rewrite (make_unmake w mv c k v t Hc), Hr, journal_journal.
  split; [reflexivity | split; [| exact Hq]].
  apply balanced_app; [now apply balanced_step | exact Ht'].
Qed.

Section Loops.

Variable rec : Score -> Score -> M Score.
Variable pos : Position.
Variable exact : Move -> Score.
Variable searched : Move -> Prop.

Hypothesis rec_sound :
  forall mv a b w, searched mv -> slt a b -> position (board w) = make pos mv ->
    framed (rec a b) w (fun v => bracket a b v (exact mv)).

Lemma max_loop_sound (moves : list Move) :
  Forall searched moves ->
  forall m a b w, position (board w) = pos -> slt a b -> sle m a ->
    framed (max_loop rec moves m a b) w
           (fun v => max_post m a b (max_scores (exact <$> moves)) v).
Proof.
  induction 1 as [|mv rest Hmv Hrest IH]; intros m a b w Hpos Hab Hma.
  - apply framed_ret. now apply max_post_done.
  - cbn [max_loop]. eapply framed_ply.
    + apply rec_sound; [exact Hmv | exact Hab |]. now rewrite pushed_position, Hpos.
    + intros v1 w' Hw' Hbr. cbv beta zeta.
      destruct (score_leb b (py_max a v1)) eqn:Hcut.
      * apply framed_ret. cbn [fmap list_fmap max_scores foldr].
        apply max_post_break; auto. now apply score_leb_sle.
      * eapply framed_weaken; [| apply IH].
        -- intros v Hv. cbn [fmap list_fmap max_scores foldr].
           apply max_post_next with (v1 := v1); auto.
        -- now rewrite Hw'.
        -- now apply score_leb_false.
        -- now apply py_max_mono.
Qed.

Lemma min_loop_sound (moves : list Move) :
  Forall searched moves ->
  forall m a b w, position (board w) = pos -> slt a b -> sle b m ->
    framed (min_loop rec moves m a b) w
           (fun v => min_post m a b (min_scores (exact <$> moves)) v).
Proof.
  induction 1 as [|mv rest Hmv Hrest IH]; intros m a b w Hpos Hab Hbm.
  - apply framed_ret. now apply min_post_done.
  - cbn [min_loop]. eapply framed_ply.
    + apply rec_sound; [exact Hmv | exact Hab |]. now rewrite pushed_position, Hpos.
    + intros v1 w' Hw' Hbr. cbv beta zeta.
      destruct (score_leb (py_min b v1) a) eqn:Hcut.
      * apply framed_ret. cbn [fmap list_fmap min_scores foldr].
        apply min_post_break; auto. now apply score_leb_sle.
      * eapply framed_weaken; [| apply IH].
        -- intros v Hv. cbn [fmap list_fmap min_scores foldr].
           apply min_post_next with (v1 := v1); auto.
        -- now rewrite Hw'.
        -- now apply score_leb_false.
        -- now apply py_min_mono.
Qed.

End Loops.

(** Alpha-beta is sound for every window: the value it returns is the
    exhaustive value when that lies inside the window, and otherwise a
    bound on it on the side of the window it fell out of. *)
Lemma minimax_sound (d : nat) :
  forall fuel a b mx w,
    (d < fuel)%nat -> slt a b ->
    framed (minimax fuel (Z.of_nat d) a b mx) w
           (fun v => bracket a b v (exhaustive d (position (board w)) mx)).
Proof.
  induction d as [|d IH]; intros fuel a b mx w Hfuel Hab;
    (destruct fuel as [|fuel]; [lia |]); cbn [minimax exhaustive];
    apply framed_observe; cbv beta.
  - cbn [Z.of_nat Z.eqb orb]. apply framed_ret, bracket_exact.
  - replace (Z.of_nat (S d) =? 0) with false by (symmetry; apply Z.eqb_neq; lia).
    replace (Z.of_nat (S d) - 1) with (Z.of_nat d) by lia.
    cbn [orb]. destruct (is_game_over (position (board w))).
    { apply framed_ret, bracket_exact. }
    destruct mx.
    + eapply framed_weaken;
        [| apply (max_loop_sound _ (position (board w))
                    (fun mv => exhaustive d (make (position (board w)) mv) false)
                    (fun _ => True))].
      * intros v [_ Hv]. exact Hv.
      * intros mv a' b' w' _ Hab' Hw'. rewrite <- Hw'. apply IH; [lia | exact Hab'].
      * now apply Forall_forall.
      * reflexivity.
      * exact Hab.
      * exact I.
    + eapply framed_weaken;
        [| apply (min_loop_sound _ (position (board w))
                    (fun mv => exhaustive d (make (position (board w)) mv) true)
                    (fun _ => True))].
      * intros v [_ Hv]. exact Hv.
      * intros mv a' b' w' _ Hab' Hw'. rewrite <- Hw'. apply IH; [lia | exact Hab'].
      * now apply Forall_forall.
      * reflexivity.
      * exact Hab.
      * destruct b; exact I.
Qed.

(** With the full window the search returns the exhaustive value. *)
Lemma minimax_full_window (d : nat) (fuel : nat) (mx : bool) (w : World) :
  (d < fuel)%nat ->
  framed (minimax fuel (Z.of_nat d) NegInf PosInf mx) w
         (fun v => v = exhaustive d (position (board w)) mx).
Proof.
  intros Hfuel. eapply framed_weaken; [| apply minimax_sound; [exact Hfuel | exact I]].
  intros v Hv. now apply bracket_full.
Qed.

(** The root loop takes the decision of the exhaustive root loop. *)
Lemma root_loop_sound (fuel : nat) (depth : Z) (d : nat) (moves : list Move) :
  depth - 1 = Z.of_nat d -> (d < fuel)%nat ->
  forall best_move best_value w,
    framed (root_loop fuel depth moves best_move best_value) w
      (fun r => r = first_strictly_best
                      (fun mv => exhaustive d (make (position (board w)) mv) false)
                      moves best_move best_value).
Proof.
  intros Hd Hfuel. induction moves as [|mv rest IH]; intros best_move best_value w.
  - now apply framed_ret.
  - cbn [root_loop first_strictly_best]. rewrite Hd. eapply framed_ply.
    + apply minimax_full_window. exact Hfuel.
    + intros v w' Hw' Hv. cbv beta. rewrite pushed_position in Hv. subst v.
      rewrite <- Hw'.
      destruct (score_ltb best_value _); apply IH.
Qed.

End Pruning.

(* ===================================================================== *)
(** ** Every search returns the board it was given *)
(* ===================================================================== *)

Section Returning.

Context `{R : Rules}.

Section LoopsReturn.

Variable rec : Score -> Score -> M Score.

Hypothesis rec_returns : forall a b w, framed (rec a b) w anything.

Lemma max_loop_returns (moves : list Move) :
  forall m a b w, framed (max_loop rec moves m a b) w anything.
Proof.
  induction moves as [|mv rest IH]; intros m a b w.
  - now apply framed_ret.
  - cbn [max_loop]. eapply framed_ply; [apply rec_returns |].
    intros v w' _ _. cbv beta zeta.
    destruct (score_leb b (py_max a v)); [now apply framed_ret | apply IH].
Qed.

Lemma min_loop_returns (moves : list Move) :
  forall m a b w, framed (min_loop rec moves m a b) w anything.
Proof.
  induction moves as [|mv rest IH]; intros m a b w.
  - now apply framed_ret.
  - cbn [min_loop]. eapply framed_ply; [apply rec_returns |].
    intros v w' _ _. cbv beta zeta.
    destruct (score_leb (py_min b v) a); [now apply framed_ret | apply IH].
Qed.

End LoopsReturn.

(** For every window, also an empty or inverted one, a search of depth
    [d >= 0] with room for [d] nested calls returns, and the board is the
    one it was called on. *)
Lemma minimax_returns (d : nat) :
  forall fuel a b mx w,
    (d < fuel)%nat -> framed (minimax fuel (Z.of_nat d) a b mx) w anything.
Proof.
  induction d as [|d IH]; intros fuel a b mx w Hfuel;
    (destruct fuel as [|fuel]; [lia |]); cbn [minimax];
    apply framed_observe; cbv beta.
  - cbn [Z.of_nat Z.eqb orb]. now apply framed_ret.
  - replace (Z.of_nat (S d) =? 0) with false by (symmetry; apply Z.eqb_neq; lia).
    replace (Z.of_nat (S d) - 1) with (Z.of_nat d) by lia.
    cbn [orb]. destruct (is_game_over (position (board w))).
    { now apply framed_ret. }
    destruct mx; [apply max_loop_returns | apply min_loop_returns];
      intros a' b' w'; apply IH; lia.
Qed.

End Returning.

(* ===================================================================== *)
(** ** Negative depth: the search runs to the end of the game *)
(* ===================================================================== *)

Section Unbounded.

Context `{R : Rules}.

(** Below zero the depth test never fires: alpha-beta is sound against
    exhaustive search as deep as the game lasts. *)
Lemma minimax_unbounded (h : nat) :
  forall fuel depth a b mx w,
    depth < 0 -> (h < fuel)%nat ->
    ends_within h (position (board w)) = true -> slt a b ->
    framed (minimax fuel depth a b mx) w
           (fun v => bracket a b v (exhaustive h (position (board w)) mx)).
Proof.
  induction h as [|h IH]; intros fuel depth a b mx w Hneg Hfuel Hends Hab;
    (destruct fuel as [|fuel]; [lia |]); cbn [minimax exhaustive];
    apply framed_observe; cbv beta;
    replace (depth =? 0) with false by (symmetry; apply Z.eqb_neq; lia);
    cbn [orb]; cbn [ends_within] in Hends.
  - rewrite orb_false_r in Hends. rewrite Hends. apply framed_ret, bracket_exact.
  - destruct (is_game_over (position (board w))).
    { apply framed_ret, bracket_exact. }
    cbn [orb] in Hends. rewrite forallb_forall in Hends.
    destruct mx.
    + eapply framed_weaken;
        [| apply (max_loop_sound _ (position (board w))
                    (fun mv => exhaustive h (make (position (board w)) mv) false)
                    (fun mv => In mv (legal_moves (position (board w)))))].
      * intros v [_ Hv]. exact Hv.
      * intros mv a' b' w' Hin Hab' Hw'. rewrite <- Hw'.
        apply IH; [lia | lia | | exact Hab']. rewrite Hw'. now apply Hends.
      * apply Forall_forall. intros mv Hmv. now apply list_elem_of_In.
      * reflexivity.
      * exact Hab.
      * exact I.
    + eapply framed_weaken;
        [| apply (min_loop_sound _ (position (board w))
                    (fun mv => exhaustive h (make (position (board w)) mv) true)
                    (fun mv => In mv (legal_moves (position (board w)))))].
      * intros v [_ Hv]. exact Hv.
      * intros mv a' b' w' Hin Hab' Hw'. rewrite <- Hw'.
        apply IH; [lia | lia | | exact Hab']. rewrite Hw'. now apply Hends.
      * apply Forall_forall. intros mv Hmv. now apply list_elem_of_In.
      * reflexivity.
      * exact Hab.
      * destruct b; exact I.
Qed.

(** The root loop at a depth [<= 0]. *)
Lemma root_loop_unbounded (fuel : nat) (depth : Z) (h : nat) (pos : Position)
    (moves : list Move) :
  depth <= 0 -> (h < fuel)%nat ->
  forallb (fun mv => ends_within h (make pos mv)) moves = true ->
  forall best_move best_value w,
    position (board w) = pos ->
    framed (root_loop fuel depth moves best_move best_value) w
      (fun r => r = first_strictly_best
                      (fun mv => exhaustive h (make pos mv) false)
                      moves best_move best_value).
Proof.
  intros Hd Hfuel. induction moves as [|mv rest IH];
    intros Hends best_move best_value w Hpos.
  - now apply framed_ret.
  - cbn [forallb] in Hends. apply andb_true_iff in Hends as [Hmv Hrest].
    cbn [root_loop first_strictly_best]. eapply framed_ply.
    + eapply framed_weaken;
        [| apply (minimax_unbounded h); [lia | exact Hfuel | | exact I]].
      * intros v Hv. apply bracket_full in Hv. exact Hv.
      * now rewrite pushed_position, Hpos.
    + intros v w' Hw' Hv. cbv beta in Hv |- *.
      rewrite pushed_position, Hpos in Hv. subst v.
      destruct (score_ltb best_value _); apply IH; auto; congruence.
Qed.

End Unbounded.

(* ===================================================================== *)
(** ** Static evaluation *)
(* ===================================================================== *)

Lemma sum_Z_cons (z : Z) (l : list Z) : sum_Z (z :: l) = z + sum_Z l.
Proof. reflexivity. Qed.

Lemma sum_Z_perm (l l' : list Z) : l ≡ₚ l' -> sum_Z l = sum_Z l'.
Proof.
  induction 1 as [| x l l' _ IH | x y l | l l' l'' _ IH1 _ IH2];
    rewrite ?sum_Z_cons; lia.
Qed.

(** The table of values, key by key; a kind that is not in the table is
    worth the default 0. *)
Lemma piece_values_table (k : Z) :
  dict_get piece_values k 0 =
  if k =? 1 then 1 else if k =? 2 then 3 else if k =? 3 then 3
  else if k =? 4 then 5 else if k =? 5 then 9 else 0.
Proof.
  unfold dict_get, piece_values, PAWN, KNIGHT, BISHOP, ROOK, QUEEN, KING.
  rewrite !lookup_insert, lookup_empty.
  repeat case_decide; subst; try reflexivity;
    repeat match goal with
           | |- context [Z.eqb k ?n] => destruct (Z.eqb_spec k n); [lia |]
           end; reflexivity.
Qed.

Lemma count_in_cons (p : Piece) (l : list Piece) (k : PieceType) (c : Color) :
  count_in (p :: l) k c =
  (if (piece_type p =? k) && Bool.eqb (color p) c then 1 else 0) + count_in l k c.
Proof.
  unfold count_in. rewrite filter_cons.
  destruct (Z.eqb_spec (piece_type p) k) as [Hk | Hk];
    destruct (Bool.eqb_spec (color p) c) as [Hc | Hc]; cbn [andb];
    case_decide as Hd; try tauto; cbn [length]; lia.
Qed.

Lemma sum_material_weighted (l : list Piece) :
  sum_Z (material <$> l) = weighted l.
Proof.
  induction l as [|p l IH]; [reflexivity |].
  cbn [fmap list_fmap]. rewrite sum_Z_cons, IH. unfold weighted.
  rewrite !count_in_cons. unfold material. rewrite piece_values_table.
  destruct p as [k c]. cbn [piece_type color].
  unfold PAWN, KNIGHT, BISHOP, ROOK, QUEEN, KING, WHITE, BLACK.
  destruct c; cbn [Bool.eqb andb];
    repeat match goal with
           | |- context [Z.eqb k ?n] => destruct (Z.eqb_spec k n); [subst k |]
           end; cbn [Z.eqb Pos.eqb andb]; lia.
Qed.

Section Evaluation.

Context `{R : Rules}.

Lemma evaluate_board_over (b : Position) :
  is_game_over b = true ->
  evaluate_board b =
  if String.eqb (result b) "1-0" then 10000
  else if String.eqb (result b) "0-1" then -10000 else 0.
Proof. intros Hover. unfold evaluate_board. now rewrite Hover. Qed.

Lemma evaluate_board_material (b : Position) :
  is_game_over b = false ->
  evaluate_board b = sum_Z (material <$> dict_values (piece_map b)).
Proof. intros Hover. unfold evaluate_board. now rewrite Hover. Qed.

End Evaluation.

(** *** Color mirroring *)

Lemma material_mirror (p : Piece) : material (mirror_piece p) = - material p.
Proof. unfold material, mirror_piece. destruct p as [k []]; cbn; lia. Qed.

#[local] Instance square_mirror_inj : Inj (=) (=) square_mirror.
Proof.
  intros x y Hxy. unfold square_mirror in Hxy.
  apply (f_equal (fun z => Z.lxor z 56)) in Hxy.
  now rewrite !Z.lxor_assoc, Z.lxor_nilpotent, !Z.lxor_0_r in Hxy.
Qed.

Lemma dict_values_empty {A : Type} : dict_values (∅ : gmap Z A) = [].
Proof. unfold dict_values. now rewrite map_to_list_empty. Qed.

Lemma material_sum_insert (m : gmap Z Piece) (i : Z) (p : Piece) :
  m !! i = None ->
  sum_Z (material <$> dict_values (<[i := p]> m))
  = material p + sum_Z (material <$> dict_values m).
Proof.
  intros Hi. unfold dict_values. rewrite <- sum_Z_cons.
  apply sum_Z_perm. rewrite (map_to_list_insert m i p Hi). reflexivity.
Qed.

Lemma material_sum_mirror (m : gmap Z Piece) :
  sum_Z (material <$> dict_values (kmap square_mirror (mirror_piece <$> m)))
  = - sum_Z (material <$> dict_values m).
Proof.
  induction m as [| i p m Hi IH] using map_ind.
  - rewrite fmap_empty, kmap_empty, !dict_values_empty. reflexivity.
  - rewrite fmap_insert, (kmap_insert square_mirror).
    rewrite (material_sum_insert m i p Hi), material_sum_insert.
    + rewrite IH, material_mirror. lia.
    + rewrite (lookup_kmap square_mirror), lookup_fmap, Hi. reflexivity.
Qed.

Lemma mirror_result_cases (s : string) :
  (s = "1-0" /\ mirror_result s = "0-1") \/
  (s = "0-1" /\ mirror_result s = "1-0") \/
  (s <> "1-0" /\ s <> "0-1" /\ mirror_result s = s).
Proof.
  unfold mirror_result.
  destruct (String.eqb_spec s "1-0") as [-> | H1]; [now left |].
  destruct (String.eqb_spec s "0-1") as [-> | H2]; [right; now left |].
  right; right; auto.
Qed.

(* ===================================================================== *)
(** ** The root decision *)
(* ===================================================================== *)

(** Either nothing beat the value in hand, or the result is the first move
    that reaches the maximum. *)
Lemma first_strictly_best_spec (score : Move -> Score) (moves : list Move) :
  forall best_move best_value,
    (first_strictly_best score moves best_move best_value = best_move /\
     forall j mj, moves !! j = Some mj -> sle (score mj) best_value)
    \/
    (exists i mv,
        first_strictly_best score moves best_move best_value = Some mv /\
        moves !! i = Some mv /\
        slt best_value (score mv) /\
        (forall j mj, (j < i)%nat -> moves !! j = Some mj -> slt (score mj) (score mv)) /\
        (forall j mj, moves !! j = Some mj -> sle (score mj) (score mv))).
Proof.
  induction moves as [|m rest IH]; intros best_move best_value.
  - left. split; [reflexivity |]. intros j mj Hj. discriminate.
  - cbn [first_strictly_best].
    destruct (score_ltb best_value (score m)) eqn:Hlt.
    + apply score_ltb_slt in Hlt. right.
      destruct (IH (Some m) (score m)) as [[Hr Hall] | (i & mv & Hr & Hi & Hgt & Hbefore & Hall)].
      * exists 0%nat, m. rewrite Hr. repeat split; auto.
        -- intros j mj Hj. lia.
        -- intros [|j] mj Hj; cbn in Hj.
           ++ injection Hj as ->. apply sle_refl.
           ++ eapply Hall, Hj.
      * exists (S i), mv. rewrite Hr. repeat split; auto.
        -- revert Hlt Hgt. generalize (score m), (score mv). score_order.
        -- intros [|j] mj Hj Hmj; cbn in Hmj.
           ++ injection Hmj as ->. exact Hgt.
           ++ apply (Hbefore j); [lia | exact Hmj].
        -- intros [|j] mj Hmj; cbn in Hmj.
           ++ injection Hmj as ->. now apply slt_sle.
           ++ eapply Hall, Hmj.
    + apply score_ltb_false in Hlt.
      destruct (IH best_move best_value) as [[Hr Hall] | (i & mv & Hr & Hi & Hgt & Hbefore & Hall)].
      * left. split; [exact Hr |].
        intros [|j] mj Hmj; cbn in Hmj.
        -- now injection Hmj as ->.
        -- eapply Hall, Hmj.
      * right. exists (S i), mv. rewrite Hr. repeat split; auto.
        -- intros [|j] mj Hj Hmj; cbn in Hmj.
           ++ injection Hmj as ->. revert Hlt Hgt.
              generalize (score mj), (score mv). score_order.
           ++ apply (Hbefore j); [lia | exact Hmj].
        -- intros [|j] mj Hmj; cbn in Hmj.
           ++ injection Hmj as ->. revert Hlt Hgt.
              generalize (score mj), (score mv). score_order.
           ++ eapply Hall, Hmj.
Qed.

Section Finite.

Context `{R : Rules}.

Hypothesis Hover : no_moves_is_over.

Lemma max_scores_finite (l : list Score) :
  l <> [] -> Forall (fun s => exists z, s = Fin z) l -> exists z, max_scores l = Fin z.
Proof.
  intros Hne Hall. induction Hall as [| s l [z ->] Hl IH]; [congruence |].
  cbn [max_scores foldr]. destruct l as [|s' l].
  - cbn. eauto.
  - destruct IH as [z' Hz']; [congruence |]. fold (max_scores (s' :: l)).
    rewrite Hz'. unfold py_max. destruct (score_ltb _ _); eauto.
Qed.

Lemma min_scores_finite (l : list Score) :
  l <> [] -> Forall (fun s => exists z, s = Fin z) l -> exists z, min_scores l = Fin z.
Proof.
  intros Hne Hall. induction Hall as [| s l [z ->] Hl IH]; [congruence |].
  cbn [min_scores foldr]. destruct l as [|s' l].
  - cbn. eauto.
  - destruct IH as [z' Hz']; [congruence |]. fold (min_scores (s' :: l)).
    rewrite Hz'. unfold py_min. destruct (score_ltb _ _); eauto.
Qed.

(** When positions without moves are over, no search value is infinite. *)
Lemma exhaustive_finite (d : nat) :
  forall b mx, exists z, exhaustive d b mx = Fin z.
Proof.
  induction d as [|d IH]; intros b mx; cbn [exhaustive]; [eauto |].
  destruct (is_game_over b) eqn:Hb; [eauto |].
  assert (Hne : legal_moves b <> []).
  { intros Hnil. apply Hover in Hnil. congruence. }
  destruct mx; [apply max_scores_finite | apply min_scores_finite];
    try (intros Hnil; apply fmap_nil_inv in Hnil; contradiction);
    apply Forall_fmap, Forall_forall; intros mv _; apply IH.
Qed.

End Finite.

(* ===================================================================== *)
(** ** Hints *)
(* ===================================================================== *)

Section Hints.

Context `{R : Rules}.

Lemma generate_hint_solution (w : World) (mv : Move) (level : Z) :
  level <> 1 -> level <> 2 ->
  generate_hint (Some mv) level w
  = Ok (solution_text (position (board w)) mv) (journal w [OpPush mv; OpPop]).
Proof.
  intros H1 H2. unfold generate_hint.
  apply Z.eqb_neq in H1, H2.
  unfold bind at 1. unfold observe at 1. cbv beta iota. rewrite H1, H2.
  rewrite (make_unmake w mv observe _ (make (position (board w)) mv) []).
  - reflexivity.
  - now rewrite journal_nil.
Qed.

Lemma generate_hint_tier1 (w : World) (mv : Move) :
  generate_hint (Some mv) 1 w =
  match piece_at (position (board w)) (from_square mv) with
  | None => Raise AttributeError w
  | Some p =>
      Ok ("Try moving your " +:+ lower (symbol p) +:+ " from " +:+
          square_name (from_square mv) +:+ ".") w
  end.
Proof.
  unfold generate_hint, bind, observe.
  now destruct (piece_at (position (board w)) (from_square mv)).
Qed.

Lemma generate_hint_tier2 (w : World) (mv : Move) :
  generate_hint (Some mv) 2 w =
  match piece_at (position (board w)) (from_square mv) with
  | None => Raise AttributeError w
  | Some p =>
      Ok (upper (symbol p) +:+ square_name (from_square mv) +:+ " to " +:+
          square_name (to_square mv) +:+ " â€“ " +:+
          (if is_capture (position (board w)) mv then "captures!"
           else if gives_check (position (board w)) mv then "checks!"
           else "good move")) w
  end.
Proof.
  unfold generate_hint, bind, observe.
  now destruct (piece_at (position (board w)) (from_square mv)).
Qed.

Lemma generate_hint_low_tiers (w : World) (best_move : option Move) (level : Z) :
  level = 1 \/ level = 2 ->
  (exists text, generate_hint best_move level w = Ok text w) \/
  generate_hint best_move level w = Raise AttributeError w.
Proof.
  intros Hlevel. destruct best_move as [mv |]; [| now right].
  destruct Hlevel as [-> | ->];
    [rewrite generate_hint_tier1 | rewrite generate_hint_tier2];
    destruct (piece_at (position (board w)) (from_square mv)); eauto.
Qed.

(** [outcome and outcome.winner] is true for a game White won, and for no
    other outcome: [chess.BLACK] is [False]. *)
Lemma outcome_and_winner_white (o : option Outcome) :
  outcome_and_winner o = true <-> exists oc, o = Some oc /\ winner oc = Some WHITE.
Proof.
  unfold outcome_and_winner. split.
  - destruct o as [oc |]; [| discriminate].
    destruct (winner oc) as [c |] eqn:Hw; [| discriminate].
    intros ->. eauto.
  - intros (oc & -> & ->). reflexivity.
Qed.

(** So a move after which Black has won is annotated as a winning line. *)
Lemma hint_after_black_win (w : World) (mv : Move) (oc : Outcome) :
  outcome (make (position (board w)) mv) = Some oc ->
  winner oc = Some BLACK ->
  generate_hint (Some mv) 3 w
  = Ok ("Solution: " +:+ san (position (board w)) mv +:+ " (" +:+ uci mv +:+
        "). Winning line!")
       (journal w [OpPush mv; OpPop]).
Proof.
  intros Hoc Hwin. rewrite generate_hint_solution by lia.
  unfold solution_text.
  destruct (outcome_and_winner (outcome (make (position (board w)) mv))) eqn:Htruth;
    [| reflexivity].
  apply outcome_and_winner_white in Htruth as (oc' & Hoc' & Hwin').
  rewrite Hoc in Hoc'. injection Hoc' as <-. rewrite Hwin in Hwin'. discriminate.
Qed.

Lemma generate_hint_none (w : World) (level : Z) :
  generate_hint None level w = Raise AttributeError w.
Proof. reflexivity. Qed.

End Hints.

(** In the tree rules a position without moves is over. *)
Lemma tree_no_moves_is_over : @no_moves_is_over Tree.tree_rules.
Proof.
  intros [i k] Hk. cbn in Hk. unfold Tree.tree_legal_moves in Hk. cbn in Hk.
  apply fmap_nil_inv in Hk. subst k.
  cbn. unfold Tree.tree_is_game_over, Tree.tree_outcome. cbn.
  now destruct (Tree.ended i).
Qed.

Lemma tree_results_agree : @results_agree Tree.tree_rules.
Proof. intros b. split; reflexivity. Qed.

(* ===================================================================== *)
(** ** The properties of the engine *)
(* ===================================================================== *)

Section Claims.

Context `{R : Rules}.

(** C1. Pruning equivalence.  At every depth [>= 1] the recursion limit
    allows (depths 1 to 4 among them), the root score that [minimax]
    computes with alpha-beta pruning from the full window is the score of
    exhaustive minimax at that depth, and the move [find_best_move]
    returns is the move the same root procedure returns when every root
    move is scored by exhaustive minimax.  Both leave the board as it
    was. *)
Theorem pruning_equivalence (fuel : nat) (depth : Z) (maximizing : bool) (w : World) :
  1 <= depth -> depth < Z.of_nat fuel ->
  (exists t,
      minimax fuel depth NegInf PosInf maximizing w
      = Ok (exhaustive (Z.to_nat depth) (position (board w)) maximizing)
           (journal w t))
  /\
  (exists t,
      find_best_move fuel depth w
      = Ok (find_best_move_exhaustive (Z.to_nat depth) (position (board w)))
           (journal w t)).
Proof.
  intros Hlo Hhi. split.
  - destruct (minimax_full_window (Z.to_nat depth) fuel maximizing w)
      as (v & t & Hrun & _ & Hv); [lia |].
    rewrite Z2Nat.id in Hrun by lia. subst v. eauto.
  - unfold find_best_move, find_best_move_exhaustive.
    destruct (root_loop_sound fuel depth (Z.to_nat depth - 1)
                (legal_moves (position (board w))) ltac:(lia) ltac:(lia)
                None NegInf w) as (r & t & Hrun & _ & Hr).
    exists t. unfold bind, observe. rewrite Hrun, Hr. reflexivity.
Qed.

(** C2. Terminal scoring.  With [is_game_over] and [result] read off the
    outcome as the rules library does, a position whose game has ended is
    over and evaluates to exactly +10000 when White won, to exactly -10000
    when Black won and to 0 when nobody won, whatever material is on the
    board. *)
Theorem terminal_scoring (b : Position) (oc : Outcome) :
  results_agree -> outcome b = Some oc ->
  is_game_over b = true /\
  evaluate_board b =
  match winner oc with
  | Some c => if c then 10000 else -10000
  | None => 0
  end.
Proof.
  intros Hagree Hoc. destruct (Hagree b) as [Hover Hres].
  rewrite Hoc in Hover, Hres. split; [exact Hover |].
  rewrite (evaluate_board_over b Hover), Hres. cbn [outcome_result].
  destruct (winner oc) as [[|] |]; reflexivity.
Qed.

(** C3, as the code has it.  A depth [<= 0] is not rejected.  [minimax] at
    depth 0 returns the static evaluation of the position.
    [find_best_move] at a depth [<= 0] scores every root move with
    [minimax] at a negative depth, where the depth test never fires, so
    each root move gets the value of exhaustive search to the end of the
    game, and the move returned is the root decision of that search. *)
Theorem nonpositive_depth_searches (fuel h : nat) (depth : Z) (alpha beta : Score)
    (maximizing : bool) (w : World) :
  depth <= 0 -> (h < fuel)%nat ->
  forallb (fun mv => ends_within h (make (position (board w)) mv))
          (legal_moves (position (board w))) = true ->
  minimax (S fuel) 0 alpha beta maximizing w
  = Ok (Fin (evaluate_board (position (board w)))) w
  /\
  Forall (fun mv =>
            exists t,
              minimax fuel (depth - 1) NegInf PosInf false (pushed_world w mv)
              = Ok (exhaustive h (make (position (board w)) mv) false)
                   (journal (pushed_world w mv) t))
         (legal_moves (position (board w)))
  /\
  (exists t,
      find_best_move fuel depth w
      = Ok (find_best_move_exhaustive (S h) (position (board w))) (journal w t)).
Proof.
  intros Hdepth Hfuel Hends. split; [reflexivity | split].
  - apply Forall_forall. intros mv Hmv.
    rewrite forallb_forall in Hends.
    destruct (minimax_unbounded h fuel (depth - 1) NegInf PosInf false
                (pushed_world w mv)) as (v & t & Hrun & _ & Hv);
      [lia | exact Hfuel | | exact I |].
    + rewrite pushed_position. now apply Hends, list_elem_of_In.
    + apply bracket_full in Hv. rewrite pushed_position in Hv. subst v. eauto.
  - unfold find_best_move, find_best_move_exhaustive.
    replace (S h - 1)%nat with h by lia.
    destruct (root_loop_unbounded fuel depth h (position (board w))
                (legal_moves (position (board w))) Hdepth Hfuel Hends
                None NegInf w eq_refl) as (r & t & Hrun & _ & Hr).
    exists t. unfold bind, observe. rewrite Hrun, Hr. reflexivity.
Qed.

(** C4, as the code has it.  For a position without legal moves
    [find_best_move] raises nothing: it returns [None], the value
    [best_move] was initialised with, and does not touch the board. *)
Theorem no_legal_move_none (fuel : nat) (depth : Z) (w : World) :
  legal_moves (position (board w)) = [] ->
  find_best_move fuel depth w = Ok None w.
Proof.
  intros Hnone. unfold find_best_move, bind, observe. now rewrite Hnone.
Qed.

(** C5. The first maximum.  When positions without legal moves are over,
    [find_best_move] at a depth [>= 1] on a position with a legal move
    returns a move.  With [scores] the one-ply scores of the legal moves in
    enumeration order (make, [minimax] one ply less from the full window
    with the opponent minimizing, unmake), the move returned stands at an
    index [i] whose score is strictly greater than every earlier score and
    not exceeded by any score. *)
Theorem first_maximum_move (fuel : nat) (depth : Z) (w : World) :
  no_moves_is_over ->
  legal_moves (position (board w)) <> [] ->
  1 <= depth -> depth <= Z.of_nat fuel ->
  exists (scores : list Score) (i : nat) (mv : Move) (s : Score) (t : list Op),
    Forall2 (fun m sc => returns (one_ply_score fuel depth m) w sc)
            (legal_moves (position (board w))) scores /\
    find_best_move fuel depth w = Ok (Some mv) (journal w t) /\
    legal_moves (position (board w)) !! i = Some mv /\
    scores !! i = Some s /\
    (forall j sj, (j < i)%nat -> scores !! j = Some sj -> slt sj s) /\
    (forall j sj, scores !! j = Some sj -> sle sj s).
Proof.
  intros Hover Hmoves Hlo Hhi.
  set (pos := position (board w)) in *.
  set (d := (Z.to_nat depth - 1)%nat).
  set (score := fun m : Move => exhaustive d (make pos m) false).
  assert (Hd : depth - 1 = Z.of_nat d) by (unfold d; lia).
  assert (Hfuel : (d < fuel)%nat) by (unfold d; lia).
  destruct (root_loop_sound fuel depth d (legal_moves pos) Hd Hfuel None NegInf w)
    as (r & t & Hrun & _ & Hr).
  fold pos in Hr. fold score in Hr.
  destruct (first_strictly_best_spec score (legal_moves pos) None NegInf)
    as [[_ Hall] | (i & mv & Hbest & Hi & _ & Hbefore & Hall)].
  { destruct (legal_moves pos) as [|m rest] eqn:Hlm; [congruence |].
    specialize (Hall 0%nat m eq_refl).
    destruct (exhaustive_finite Hover d (make pos m) false) as [z Hz].
    unfold score in Hall. rewrite Hz in Hall. contradiction. }
  exists (score <$> legal_moves pos), i, mv, (score mv), t.
  repeat split.
  - apply Forall2_fmap_r, Forall_Forall2_diag, Forall_forall. intros m _.
    destruct (minimax_full_window d fuel false (pushed_world w m) Hfuel)
      as (v & t' & Hm & _ & Hv).
    rewrite pushed_position in Hv. fold pos in Hv. fold (score m) in Hv. subst v.
    exists (journal w (OpPush m :: t' ++ [OpPop])).
    unfold one_ply_score. rewrite Hd.
    now rewrite (make_unmake w m _ _ (score m) t' Hm).
  - unfold find_best_move, bind, observe. fold pos. now rewrite Hrun, Hr, Hbest.
  - exact Hi.
  - now rewrite list_lookup_fmap, Hi.
  - intros j sj Hj Hsj. rewrite list_lookup_fmap in Hsj.
    destruct (legal_moves pos !! j) as [mj |] eqn:Hmj; [| discriminate].
    injection Hsj as <-. now apply (Hbefore j).
  - intros j sj Hsj. rewrite list_lookup_fmap in Hsj.
    destruct (legal_moves pos !! j) as [mj |] eqn:Hmj; [| discriminate].
    injection Hsj as <-. now apply (Hall j).
Qed.

(** C7. The board is unchanged on return.  Tiers 1 and 2 of
    [generate_hint] return or fail without a single push or pop.  Every
    other tier journals exactly one push of the move and the pop that
    undoes it.  [minimax] at a depth [>= 0] and [find_best_move] one ply
    deeper return, for every window and so on pruned paths too, with the
    board they were called on and a journal in which every push is undone
    right after the descent under it. *)
Theorem position_restored (fuel : nat) (depth level : Z) (alpha beta : Score)
    (maximizing : bool) (best_move : option Move) (w : World) :
  0 <= depth -> depth < Z.of_nat fuel ->
  (if (level =? 1) || (level =? 2)
   then (exists text, generate_hint best_move level w = Ok text w) \/
        generate_hint best_move level w = Raise AttributeError w
   else match best_move with
        | Some mv =>
            exists text,
              generate_hint best_move level w
              = Ok text (journal w [OpPush mv; OpPop])
        | None => generate_hint best_move level w = Raise AttributeError w
        end)
  /\
  (exists v t,
      minimax fuel depth alpha beta maximizing w = Ok v (journal w t) /\
      balanced t)
  /\
  (exists r t,
      find_best_move fuel (depth + 1) w = Ok r (journal w t) /\
      balanced t).
Proof.
  intros Hlo Hhi. split; [| split].
  - destruct (Z.eqb_spec level 1) as [H1 | H1];
      [| destruct (Z.eqb_spec level 2) as [H2 | H2]]; cbn [orb].
    + apply generate_hint_low_tiers. now left.
    + apply generate_hint_low_tiers. now right.
    + destruct best_move as [mv |]; [| apply generate_hint_none].
      eexists. now apply generate_hint_solution.
  - destruct (minimax_returns (Z.to_nat depth) fuel alpha beta maximizing w)
      as (v & t & Hrun & Ht & _); [lia |].
    rewrite Z2Nat.id in Hrun by lia. eauto.
  - destruct (root_loop_sound fuel (depth + 1) (Z.to_nat depth)
                (legal_moves (position (board w))) ltac:(lia) ltac:(lia)
                None NegInf w) as (r & t & Hrun & Ht & _).
    exists r, t. split; [| exact Ht].
    unfold find_best_move, bind, observe. exact Hrun.
Qed.

(** C8. Material scoring.  A position that is not over evaluates to the sum
    over the pieces on the board of the piece's table value, taken
    positively for White and negatively for Black.  With the table
    pawn 1, knight 3, bishop 3, rook 5, queen 9, king 0 that is the
    weighted difference of the piece counts, in which kings count for
    nothing and no square enters. *)
Theorem material_scoring (b : Position) :
  is_game_over b = false ->
  evaluate_board b = sum_Z (material <$> dict_values (piece_map b))
  /\
  evaluate_board b =
    1 * (count_pieces b PAWN WHITE - count_pieces b PAWN BLACK)
    + 3 * (count_pieces b KNIGHT WHITE - count_pieces b KNIGHT BLACK)
    + 3 * (count_pieces b BISHOP WHITE - count_pieces b BISHOP BLACK)
    + 5 * (count_pieces b ROOK WHITE - count_pieces b ROOK BLACK)
    + 9 * (count_pieces b QUEEN WHITE - count_pieces b QUEEN BLACK)
    + 0 * (count_pieces b KING WHITE - count_pieces b KING BLACK)
  /\
  (dict_get piece_values PAWN 0, dict_get piece_values KNIGHT 0,
   dict_get piece_values BISHOP 0, dict_get piece_values ROOK 0,
   dict_get piece_values QUEEN 0, dict_get piece_values KING 0)
  = (1, 3, 3, 5, 9, 0).
Proof.
  intros Hover. rewrite (evaluate_board_material b Hover).
  split; [reflexivity | split; [| reflexivity]].
  apply sum_material_weighted.
Qed.

(** C9. Material symmetry.  A position and its color-mirrored counterpart
    evaluate to opposite scores. *)
Theorem material_symmetry (b b' : Position) :
  color_mirror b b' -> evaluate_board b' = - evaluate_board b.
Proof.
  intros (Hover & Hres & Hmap). unfold evaluate_board.
  rewrite Hover, Hres, Hmap. destruct (is_game_over b).
  - destruct (mirror_result_cases (result b)) as [[Hb ->] | [[Hb ->] | (H1 & H2 & ->)]].
    + rewrite Hb. reflexivity.
    + rewrite Hb. reflexivity.
    + apply String.eqb_neq in H1, H2. now rewrite H1, H2.
  - apply material_sum_mirror.
Qed.

(** C10. Tiers other than 1 and 2.  For every tier value that is neither 1
    nor 2 (0, negative values and values above 3 included) [generate_hint]
    returns the full disclosure of tier 3. *)
Theorem other_tiers_disclose_solution (w : World) (mv : Move) (level : Z) :
  level <> 1 -> level <> 2 ->
  generate_hint (Some mv) level w = generate_hint (Some mv) 3 w /\
  generate_hint (Some mv) level w
  = Ok ("Solution: " +:+ san (position (board w)) mv +:+ " (" +:+ uci mv +:+ "). " +:+
        (if outcome_and_winner (outcome (make (position (board w)) mv))
         then "Mate!" else "Winning line!"))
       (journal w [OpPush mv; OpPop]).
Proof.
  intros H1 H2.
  rewrite (generate_hint_solution w mv level H1 H2).
  rewrite (generate_hint_solution w mv 3) by lia.
  split; reflexivity.
Qed.

End Claims.

(* ===================================================================== *)
(** ** Further properties of the search *)
(* ===================================================================== *)

Section MoreSearch.

Context `{R : Rules}.

(** X1. The window of [minimax].  For every window [alpha < beta] a search
    of depth [>= 0] returns a value [v] that is the exhaustive value when
    it lies strictly inside the window, an upper bound of it when
    [v <= alpha], and a lower bound of it when [beta <= v]; the value may
    lie outside the window (the search is fail-soft). *)
Theorem window_bounds (fuel : nat) (depth : Z) (alpha beta : Score)
    (maximizing : bool) (w : World) :
  0 <= depth -> depth < Z.of_nat fuel -> slt alpha beta ->
  exists v t,
    minimax fuel depth alpha beta maximizing w = Ok v (journal w t) /\
    (slt alpha v -> slt v beta ->
     v = exhaustive (Z.to_nat depth) (position (board w)) maximizing) /\
    (sle v alpha ->
     sle (exhaustive (Z.to_nat depth) (position (board w)) maximizing) v) /\
    (sle beta v ->
     sle v (exhaustive (Z.to_nat depth) (position (board w)) maximizing)).
Proof.
  intros Hlo Hhi Hab.
  destruct (minimax_sound (Z.to_nat depth) fuel alpha beta maximizing w)
    as (v & t & Hrun & _ & Hbelow & Habove & Hinside); [lia | exact Hab |].
  rewrite Z2Nat.id in Hrun by lia.
  exists v, t. repeat split; auto.
  intros H1 H2. destruct (Hinside H1 H2). now apply sle_antisym.
Qed.

(** *** No infinite value *)

Lemma py_max_finite (m v : Score) : m <> PosInf -> finite v -> finite (py_max m v).
Proof.
  intros Hm [z ->]. unfold py_max.
  destruct m as [| y |]; cbn; [eexists; reflexivity | | congruence].
  destruct (y <? z); eexists; reflexivity.
Qed.

Lemma py_min_finite (m v : Score) : m <> NegInf -> finite v -> finite (py_min m v).
Proof.
  intros Hm [z ->]. unfold py_min.
  destruct m as [| y |]; cbn; [congruence | | eexists; reflexivity].
  destruct (z <? y); eexists; reflexivity.
Qed.

Lemma finite_not_inf (s : Score) : finite s -> s <> PosInf /\ s <> NegInf.
Proof. intros [z ->]. split; discriminate. Qed.

Section LoopsFinite.

Variable rec : Score -> Score -> M Score.

Hypothesis rec_finite : forall a b w, framed (rec a b) w finite.

Lemma max_loop_finite (moves : list Move) :
  forall m a b w,
    m <> PosInf -> moves <> [] \/ finite m ->
    framed (max_loop rec moves m a b) w finite.
Proof.
  induction moves as [|mv rest IH]; intros m a b w Hm Hstart.
  - apply framed_ret. destruct Hstart; [congruence | assumption].
  - cbn [max_loop]. eapply framed_ply; [apply rec_finite |].
    intros v w' _ Hv. cbv beta zeta.
    pose proof (py_max_finite m v Hm Hv) as Hnew.
    destruct (score_leb b (py_max a v)); [now apply framed_ret |].
    apply IH; [apply (finite_not_inf _ Hnew) | now right].
Qed.

Lemma min_loop_finite (moves : list Move) :
  forall m a b w,
    m <> NegInf -> moves <> [] \/ finite m ->
    framed (min_loop rec moves m a b) w finite.
Proof.
  induction moves as [|mv rest IH]; intros m a b w Hm Hstart.
  - apply framed_ret. destruct Hstart; [congruence | assumption].
  - cbn [min_loop]. eapply framed_ply; [apply rec_finite |].
    intros v w' _ Hv. cbv beta zeta.
    pose proof (py_min_finite m v Hm Hv) as Hnew.
    destruct (score_leb (py_min b v) a); [now apply framed_ret |].
    apply IH; [apply (finite_not_inf _ Hnew) | now right].
Qed.

End LoopsFinite.

Lemma minimax_finite (Hover : no_moves_is_over) (d : nat) :
  forall fuel a b mx w,
    (d < fuel)%nat -> framed (minimax fuel (Z.of_nat d) a b mx) w finite.
Proof.
  induction d as [|d IH]; intros fuel a b mx w Hfuel;
    (destruct fuel as [|fuel]; [lia |]); cbn [minimax];
    apply framed_observe; cbv beta.
  - cbn [Z.of_nat Z.eqb orb]. apply framed_ret. eexists; reflexivity.
  - replace (Z.of_nat (S d) =? 0) with false by (symmetry; apply Z.eqb_neq; lia).
    replace (Z.of_nat (S d) - 1) with (Z.of_nat d) by lia.
    cbn [orb]. destruct (is_game_over (position (board w))) eqn:Hgo.
    { apply framed_ret. eexists; reflexivity. }
    assert (Hne : legal_moves (position (board w)) <> []).
    { intros Hnil. apply Hover in Hnil. congruence. }
    destruct mx; [apply max_loop_finite | apply min_loop_finite];
      try discriminate; try (now left);
      intros a' b' w'; apply IH; lia.
Qed.

(** X2. No infinite value.  When a position without legal moves is over, a
    search of depth [>= 0] returns an integer for every window: the
    [-inf] and [+inf] its loops start from never come out. *)
Theorem search_value_finite (fuel : nat) (depth : Z) (alpha beta : Score)
    (maximizing : bool) (w : World) :
  no_moves_is_over -> 0 <= depth -> depth < Z.of_nat fuel ->
  exists z t,
    minimax fuel depth alpha beta maximizing w = Ok (Fin z) (journal w t).
Proof.
  intros Hover Hlo Hhi.
  destruct (minimax_finite Hover (Z.to_nat depth) fuel alpha beta maximizing w)
    as (v & t & Hrun & _ & z & ->); [lia |].
  rewrite Z2Nat.id in Hrun by lia. eauto.
Qed.

(** *** Depths below zero *)

Lemma max_loop_ext (rec rec' : Score -> Score -> M Score) :
  (forall a b w, rec a b w = rec' a b w) ->
  forall moves m a b w,
    max_loop rec moves m a b w = max_loop rec' moves m a b w.
Proof.
  intros Hext. induction moves as [|mv rest IH]; intros m a b w; [reflexivity |].
  cbn [max_loop]. unfold bind. destruct (push mv w) as [u w1 | e w1]; [| reflexivity].
  rewrite Hext. destruct (rec' a b w1) as [v w2 | e w2]; [| reflexivity].
  destruct (pop w2) as [u' w3 | e w3]; [| reflexivity].
  destruct (score_leb b (py_max a v)); [reflexivity | apply IH].
Qed.

Lemma min_loop_ext (rec rec' : Score -> Score -> M Score) :
  (forall a b w, rec a b w = rec' a b w) ->
  forall moves m a b w,
    min_loop rec moves m a b w = min_loop rec' moves m a b w.
Proof.
  intros Hext. induction moves as [|mv rest IH]; intros m a b w; [reflexivity |].
  cbn [min_loop]. unfold bind. destruct (push mv w) as [u w1 | e w1]; [| reflexivity].
  rewrite Hext. destruct (rec' a b w1) as [v w2 | e w2]; [| reflexivity].
  destruct (pop w2) as [u' w3 | e w3]; [| reflexivity].
  destruct (score_leb (py_min b v) a); [reflexivity | apply IH].
Qed.

Lemma minimax_unfold (fuel : nat) (d : Z) (a b : Score) (mx : bool) (w : World) :
  minimax (S fuel) d a b mx w =
  (if (d =? 0) || is_game_over (position (board w))
   then ret (Fin (evaluate_board (position (board w))))
   else if mx then
     max_loop (fun a' b' => minimax fuel (d - 1) a' b' false)
              (legal_moves (position (board w))) NegInf a b
   else
     min_loop (fun a' b' => minimax fuel (d - 1) a' b' true)
              (legal_moves (position (board w))) PosInf a b) w.
Proof. reflexivity. Qed.

Lemma minimax_below_zero (fuel : nat) :
  forall d d' a b mx w,
    d < 0 -> d' < 0 -> minimax fuel d a b mx w = minimax fuel d' a b mx w.
Proof.
  induction fuel as [|fuel IH]; intros d d' a b mx w Hd Hd'; [reflexivity |].
  rewrite !minimax_unfold.
  replace (d =? 0) with false by (symmetry; apply Z.eqb_neq; lia).
  replace (d' =? 0) with false by (symmetry; apply Z.eqb_neq; lia).
  cbn [orb]. destruct (is_game_over (position (board w))); [reflexivity |].
  destruct mx; [apply max_loop_ext | apply min_loop_ext];
    intros a' b' w'; apply IH; lia.
Qed.

Lemma root_loop_below_zero (fuel : nat) (depth depth' : Z) :
  depth <= 0 -> depth' <= 0 ->
  forall moves best_move best_value w,
    root_loop fuel depth moves best_move best_value w
    = root_loop fuel depth' moves best_move best_value w.
Proof.
  intros Hd Hd'. induction moves as [|mv rest IH];
    intros best_move best_value w; [reflexivity |].
  cbn [root_loop]. unfold bind. destruct (push mv w) as [u w1 | e w1]; [| reflexivity].
  rewrite (minimax_below_zero fuel (depth - 1) (depth' - 1)) by lia.
  destruct (minimax fuel (depth' - 1) NegInf PosInf false w1) as [v w2 | e w2];
    [| reflexivity].
  destruct (pop w2) as [u' w3 | e w3]; [| reflexivity].
  destruct (score_ltb best_value v); apply IH.
Qed.

(** X3. Depths below zero are all alike.  [minimax] at any two negative
    depths, and [find_best_move] at any two depths [<= 0], compute the same
    result (value, board and failure alike): once the depth is below zero
    it plays no part in the search. *)
Theorem negative_depths_agree (fuel : nat) (d d' depth depth' : Z)
    (alpha beta : Score) (maximizing : bool) (w : World) :
  d < 0 -> d' < 0 -> depth <= 0 -> depth' <= 0 ->
  minimax fuel d alpha beta maximizing w = minimax fuel d' alpha beta maximizing w /\
  find_best_move fuel depth w = find_best_move fuel depth' w.
Proof.
  intros Hd Hd' Hdepth Hdepth'. split.
  - now apply minimax_below_zero.
  - unfold find_best_move, bind, observe. now apply root_loop_below_zero.
Qed.

End MoreSearch.

(* ===================================================================== *)
(** ** The recursion limit *)
(* ===================================================================== *)

Section Limit.

Context `{R : Rules}.

(** A make/unmake ply whose descent fails: the pop is not reached. *)
Lemma make_raise {A B : Type} (w : World) (mv : Move) (c : M A)
    (k : A -> M B) (e : Exn) (w' : World) :
  c (pushed_world w mv) = Raise e w' ->
  (push mv ;;; x <- c ;; pop ;;; k x) w = Raise e w'.
Proof.
  intros Hc. unfold bind at 1. unfold push. fold (pushed (board w) mv).
  fold (pushed_world w mv). unfold bind at 1. now rewrite Hc.
Qed.

Lemma stranded_ret {A : Type} (n : nat) (a : A) (w : World) : stranded n (ret a) w.
Proof. left. exists a, []. rewrite journal_nil. split; [reflexivity | constructor]. Qed.

Lemma stranded_ply {A B : Type} (n : nat) (w : World) (mv : Move) (c : M A)
    (k : A -> M B) :
  stranded n c (pushed_world w mv) ->
  (forall v w', board w' = board w -> stranded (S n) (k v) w') ->
  stranded (S n) (push mv ;;; x <- c ;; pop ;;; k x) w.
Proof.
  intros [(v & t & Hc & Ht) | (ms & w' & Hc & Hlen & Hb)] Hk; unfold stranded.
  - rewrite (make_unmake w mv c k v t Hc).
    destruct (Hk v (journal w (OpPush mv :: t ++ [OpPop])) eq_refl)
      as [(r & t' & Hr & Ht') | (ms & w' & Hr & Hlen & Hb)].
    + left. exists r, ((OpPush mv :: t ++ [OpPop]) ++ t').
      rewrite Hr, journal_journal. split; [reflexivity |].
      apply balanced_app; [now apply balanced_step | exact Ht'].
    + right. exists ms, w'. auto.
  - right. exists (mv :: ms), w'.
    rewrite (make_raise w mv c k _ w' Hc).
    split; [reflexivity | split; [cbn; now rewrite Hlen | exact Hb]].
Qed.

Section LoopsStranded.

Variable rec : Score -> Score -> M Score.
Variable n : nat.

Hypothesis rec_stranded : forall a b w, stranded n (rec a b) w.

Lemma max_loop_stranded (moves : list Move) :
  forall m a b w, stranded (S n) (max_loop rec moves m a b) w.
Proof.
  induction moves as [|mv rest IH]; intros m a b w; [apply stranded_ret |].
  cbn [max_loop]. apply stranded_ply; [apply rec_stranded |].
  intros v w' _. cbv beta zeta.
  destruct (score_leb b (py_max a v)); [apply stranded_ret | apply IH].
Qed.

Lemma min_loop_stranded (moves : list Move) :
  forall m a b w, stranded (S n) (min_loop rec moves m a b) w.
Proof.
  induction moves as [|mv rest IH]; intros m a b w; [apply stranded_ret |].
  cbn [min_loop]. apply stranded_ply; [apply rec_stranded |].
  intros v w' _. cbv beta zeta.
  destruct (score_leb (py_min b v) a); [apply stranded_ret | apply IH].
Qed.

End LoopsStranded.

Lemma minimax_stranded (fuel : nat) :
  forall d a b mx w, stranded fuel (minimax fuel d a b mx) w.
Proof.
  induction fuel as [|fuel IH]; intros d a b mx w.
  - right. exists [], w. repeat split.
  - unfold stranded. rewrite minimax_unfold. fold (stranded (S fuel)
      (if (d =? 0) || is_game_over (position (board w))
       then ret (Fin (evaluate_board (position (board w))))
       else if mx then
         max_loop (fun a' b' => minimax fuel (d - 1) a' b' false)
                  (legal_moves (position (board w))) NegInf a b
       else
         min_loop (fun a' b' => minimax fuel (d - 1) a' b' true)
                  (legal_moves (position (board w))) PosInf a b) w).
    destruct ((d =? 0) || is_game_over (position (board w))); [apply stranded_ret |].
    destruct mx; [apply max_loop_stranded | apply min_loop_stranded];
      intros a' b' w'; apply IH.
Qed.

Lemma root_loop_stranded (fuel : nat) (depth : Z) (moves : list Move) :
  forall best_move best_value w,
    stranded (S fuel) (root_loop fuel depth moves best_move best_value) w.
Proof.
  induction moves as [|mv rest IH]; intros best_move best_value w;
    [apply stranded_ret |].
  cbn [root_loop]. apply stranded_ply; [apply minimax_stranded |].
  intros v w' _. cbv beta. destruct (score_ltb best_value v); apply IH.
Qed.

(** X4. The recursion limit strands moves.  For every depth (negative ones
    too) and every window, [minimax] either returns with the board as it
    was, or raises [RecursionError] and nothing else; a pop never fails.
    When it raises, as many moves as the limit allowed nested calls are
    left pushed on the board: no move under way is undone.  The same holds
    for [find_best_move], with one more move stranded. *)
Theorem recursion_limit_strands_moves (fuel : nat) (depth : Z) (alpha beta : Score)
    (maximizing : bool) (w : World) :
  ((exists v t,
       minimax fuel depth alpha beta maximizing w = Ok v (journal w t) /\
       balanced t)
   \/
   (exists ms w',
       minimax fuel depth alpha beta maximizing w = Raise RecursionError w' /\
       length ms = fuel /\ board w' = push_all (board w) ms))
  /\
  ((exists r t, find_best_move fuel depth w = Ok r (journal w t) /\ balanced t)
   \/
   (exists ms w',
       find_best_move fuel depth w = Raise RecursionError w' /\
       length ms = S fuel /\ board w' = push_all (board w) ms)).
Proof.
  split.
  - apply minimax_stranded.
  - apply (root_loop_stranded fuel depth (legal_moves (position (board w))) None NegInf w).
Qed.

End Limit.

(* ===================================================================== *)
(** ** Further properties of the root decision and of the evaluation *)
(* ===================================================================== *)

Section MoreRoot.

Context `{R : Rules}.

Lemma root_loop_member (fuel : nat) (depth : Z) (moves : list Move) :
  forall best_move best_value w r w',
    root_loop fuel depth moves best_move best_value w = Ok r w' ->
    r = best_move \/ exists mv, r = Some mv /\ mv ∈ moves.
Proof.
  induction moves as [|m rest IH]; intros best_move best_value w r w' Hrun.
  - cbn in Hrun. injection Hrun as <- _. now left.
  - cbn [root_loop] in Hrun. unfold bind in Hrun.
    destruct (push m w) as [u w1 | e w1]; [| discriminate].
    destruct (minimax fuel (depth - 1) NegInf PosInf false w1) as [v w2 | e w2];
      [| discriminate].
    destruct (pop w2) as [u' w3 | e w3]; [| discriminate].
    destruct (score_ltb best_value v); apply IH in Hrun as [-> | (mv & -> & Hin)].
    + right. exists m. split; [reflexivity | apply list_elem_of_here].
    + right. exists mv. split; [reflexivity | now apply list_elem_of_further].
    + now left.
    + right. exists mv. split; [reflexivity | now apply list_elem_of_further].
Qed.

(** X5. The move returned is one of the legal moves.  At every depth, for
    every recursion limit, a move that [find_best_move] returns is one the
    rules enumerated for the position: the engine makes up no move. *)
Theorem best_move_is_legal (fuel : nat) (depth : Z) (w w' : World) (mv : Move) :
  find_best_move fuel depth w = Ok (Some mv) w' ->
  mv ∈ legal_moves (position (board w)).
Proof.
  unfold find_best_move, bind, observe. intros Hrun.
  apply root_loop_member in Hrun as [Hnone | (mv' & Hsome & Hin)];
    [discriminate |]. now injection Hsome as ->.
Qed.

(** *** The value at the root and the score of the move chosen *)

Lemma sle_trans (a b c : Score) : sle a b -> sle b c -> sle a c.
Proof. score_order. Qed.

Lemma py_max_least (a b x : Score) : sle a x -> sle b x -> sle (py_max a b) x.
Proof. unfold py_max. now destruct (score_ltb a b). Qed.

Lemma py_max_left (a b : Score) : sle a (py_max a b).
Proof. score_order. Qed.

Lemma py_max_right (a b : Score) : sle b (py_max a b).
Proof. score_order. Qed.

Lemma max_scores_least (l : list Score) (x : Score) :
  (forall y, y ∈ l -> sle y x) -> sle (max_scores l) x.
Proof.
  induction l as [|y l IH]; intros Hall; [exact I |].
  cbn [max_scores foldr]. apply py_max_least.
  - apply Hall, list_elem_of_here.
  - apply IH. intros z Hz. now apply Hall, list_elem_of_further.
Qed.

Lemma max_scores_above (l : list Score) (x : Score) :
  x ∈ l -> sle x (max_scores l).
Proof.
  induction 1 as [x l | x y l Hin IH]; cbn [max_scores foldr].
  - apply py_max_left.
  - eapply sle_trans; [exact IH | apply py_max_right].
Qed.

(** The root decision at a depth [>= 1] on a position with a legal move. *)
Lemma best_move_found (Hover : no_moves_is_over) (fuel : nat) (depth : Z) (w : World) :
  legal_moves (position (board w)) <> [] ->
  1 <= depth -> depth <= Z.of_nat fuel ->
  exists mv t,
    find_best_move fuel depth w = Ok (Some mv) (journal w t) /\
    balanced t /\
    mv ∈ legal_moves (position (board w)) /\
    find_best_move_exhaustive (Z.to_nat depth) (position (board w)) = Some mv /\
    (forall m, m ∈ legal_moves (position (board w)) ->
       sle (exhaustive (Z.to_nat depth - 1) (make (position (board w)) m) false)
           (exhaustive (Z.to_nat depth - 1) (make (position (board w)) mv) false)).
Proof.
  intros Hmoves Hlo Hhi.
  set (pos := position (board w)) in *.
  set (d := (Z.to_nat depth - 1)%nat).
  set (score := fun m : Move => exhaustive d (make pos m) false).
  assert (Hd : depth - 1 = Z.of_nat d) by (unfold d; lia).
  assert (Hfuel : (d < fuel)%nat) by (unfold d; lia).
  destruct (root_loop_sound fuel depth d (legal_moves pos) Hd Hfuel None NegInf w)
    as (r & t & Hrun & Ht & Hr).
  fold pos in Hr. fold score in Hr.
  destruct (first_strictly_best_spec score (legal_moves pos) None NegInf)
    as [[_ Hall] | (i & mv & Hbest & Hi & _ & _ & Hall)].
  { destruct (legal_moves pos) as [|m rest] eqn:Hlm; [congruence |].
    specialize (Hall 0%nat m eq_refl).
    destruct (exhaustive_finite Hover d (make pos m) false) as [z Hz].
    unfold score in Hall. rewrite Hz in Hall. contradiction. }
  exists mv, t. repeat split.
  - unfold find_best_move, bind, observe. fold pos. now rewrite Hrun, Hr, Hbest.
  - exact Ht.
  - eapply list_elem_of_lookup_2, Hi.
  - unfold find_best_move_exhaustive. fold pos. fold d. exact Hbest.
  - intros m Hm. apply list_elem_of_lookup_1 in Hm as [j Hj]. apply (Hall j m Hj).
Qed.

(** X6. The value at the root is the score of the move chosen.  When
    positions without legal moves are over, on a position that is not over
    and at a depth [>= 1], the value [minimax] returns for the maximizing
    side from the full window is the one-ply score of the very move
    [find_best_move] returns at that depth. *)
Theorem root_value_is_score_of_best_move (fuel : nat) (depth : Z) (w : World) :
  no_moves_is_over ->
  is_game_over (position (board w)) = false ->
  1 <= depth -> depth < Z.of_nat fuel ->
  exists mv s t1 t2,
    find_best_move fuel depth w = Ok (Some mv) (journal w t1) /\
    minimax fuel depth NegInf PosInf true w = Ok s (journal w t2) /\
    returns (one_ply_score fuel depth mv) w s.
Proof.
  intros Hover Hgo Hlo Hhi.
  assert (Hmoves : legal_moves (position (board w)) <> []).
  { intros Hnil. apply Hover in Hnil. congruence. }
  destruct (best_move_found Hover fuel depth w Hmoves Hlo ltac:(lia))
    as (mv & t1 & Hbest & _ & Hin & _ & Hmax).
  destruct (minimax_full_window (Z.to_nat depth) fuel true w ltac:(lia))
    as (s & t2 & Hrun & _ & Hs).
  rewrite Z2Nat.id in Hrun by lia.
  set (d := (Z.to_nat depth - 1)%nat) in *.
  assert (Hd : depth - 1 = Z.of_nat d) by (unfold d; lia).
  replace (Z.to_nat depth) with (S d) in Hs by (unfold d; lia).
  cbn [exhaustive] in Hs. rewrite Hgo in Hs.
  assert (Hscore : s = exhaustive d (make (position (board w)) mv) false).
  { subst s. apply sle_antisym.
    - apply max_scores_least. intros y Hy.
      apply list_elem_of_fmap in Hy as (m & -> & Hm). now apply Hmax.
    - apply max_scores_above, list_elem_of_fmap. eauto. }
  exists mv, s, t1, t2. split; [exact Hbest | split; [exact Hrun |]].
  destruct (minimax_full_window d fuel false (pushed_world w mv) ltac:(lia))
    as (v & t' & Hm & _ & Hv).
  rewrite pushed_position in Hv. rewrite <- Hscore in Hv. subst v.
  exists (journal w (OpPush mv :: t' ++ [OpPop])).
  unfold one_ply_score. rewrite Hd.
  now rewrite (make_unmake w mv _ _ s t' Hm).
Qed.

(** *** The size of a material score *)

Lemma material_abs (p : Piece) : Z.abs (material p) <= 9.
Proof.
  unfold material. rewrite piece_values_table.
  destruct (Bool.eqb (color p) WHITE);
    repeat match goal with
           | |- context [Z.eqb ?k ?n] => destruct (Z.eqb k n)
           end; lia.
Qed.

Lemma sum_material_abs (l : list Piece) :
  Z.abs (sum_Z (material <$> l)) <= 9 * Z.of_nat (length l).
Proof.
  induction l as [|p l IH]; [cbn; lia |].
  cbn [fmap list_fmap length]. rewrite sum_Z_cons.
  pose proof (material_abs p). lia.
Qed.

(** X7. The size of the score.  A position that is over evaluates within
    [-10000, 10000]; one that is not over evaluates within nine points per
    piece on the board (288 for the 32 pieces of a full chess board, far
    below the score of a won game). *)
Theorem evaluation_bound (b : Position) :
  Z.abs (evaluate_board b) <=
  (if is_game_over b then 10000 else 9 * Z.of_nat (size (piece_map b))).
Proof.
  destruct (is_game_over b) eqn:Hgo.
  - rewrite (evaluate_board_over b Hgo).
    destruct (String.eqb (result b) "1-0"); [lia |].
    destruct (String.eqb (result b) "0-1"); lia.
  - rewrite (evaluate_board_material b Hgo).
    pose proof (sum_material_abs (dict_values (piece_map b))) as Hsum.
    unfold dict_values in Hsum at 2.
    now rewrite length_fmap, length_map_to_list in Hsum.
Qed.

End MoreRoot.

(* ===================================================================== *)
(** ** Further properties of the hints *)
(* ===================================================================== *)

Lemma append_cancel (s a b : string) : s +:+ a = s +:+ b -> a = b.
Proof.
  induction s as [|c s IH]; cbn; intros Heq; [exact Heq |].
  injection Heq as Heq. now apply IH.
Qed.

Section MoreHints.

Context `{R : Rules}.


(** X9. What tier 3 calls a mate.  The tier-3 hint of a move ends in
    "Mate!" exactly when the game is over after the move with White as
    winner.  After every other move (a stalemate or another draw and a
    win of Black among them) it ends in "Winning line!". *)
Theorem mate_annotation_means_white_won (w : World) (mv : Move) :
  (generate_hint (Some mv) 3 w
   = Ok ("Solution: " +:+ san (position (board w)) mv +:+ " (" +:+ uci mv +:+
         "). Mate!")
        (journal w [OpPush mv; OpPop])
   <->
   exists oc, outcome (make (position (board w)) mv) = Some oc /\
              winner oc = Some WHITE)
  /\
  (generate_hint (Some mv) 3 w
   = Ok ("Solution: " +:+ san (position (board w)) mv +:+ " (" +:+ uci mv +:+
         "). Winning line!")
        (journal w [OpPush mv; OpPop])
   <->
   ~ exists oc, outcome (make (position (board w)) mv) = Some oc /\
                winner oc = Some WHITE).
Proof.
  rewrite generate_hint_solution by lia. unfold solution_text.
  rewrite <- outcome_and_winner_white.
  destruct (outcome_and_winner (outcome (make (position (board w)) mv))).
  - split; split; try (intros; reflexivity); try congruence.
    intros Heq. injection Heq as Heq.
    repeat apply append_cancel in Heq. discriminate.
  - split; split; try (intros; reflexivity); try congruence.
    intros Heq. injection Heq as Heq.
    repeat apply append_cancel in Heq. discriminate.
Qed.

End MoreHints.

(* ===================================================================== *)
(** ** The handler of the hint route *)
(* ===================================================================== *)

Section MoreHandler.

Context `{R : Rules}.

Variable board_of_fen : string -> option Position.
Variable board_svg : Position -> string.
Variable format_eval : Score -> string.


Lemma bind_raise {A B : Type} (c : M A) (k : A -> M B) (w w' : World) (e : Exn) :
  c w = Raise e w' -> (x <- c ;; k x) w = Raise e w'.
Proof. intros Hc. unfold bind. now rewrite Hc. Qed.




End MoreHandler.

(* ===================================================================== *)
(** ** The properties on concrete positions *)
(* ===================================================================== *)

Import Tree.

(** C1 on the king-and-queen ending, three plies deep. *)
Lemma pruning_equivalence_witness :
  1 <= 3 /\ 3 < Z.of_nat 6 /\
  (exists t,
      minimax 6 3 NegInf PosInf true (fresh kq_start)
      = Ok (exhaustive (Z.to_nat 3) (position (board (fresh kq_start))) true)
           (journal (fresh kq_start) t))
  /\
  (exists t,
      find_best_move 6 3 (fresh kq_start)
      = Ok (find_best_move_exhaustive (Z.to_nat 3) (position (board (fresh kq_start))))
           (journal (fresh kq_start) t)).
Proof.
  split; [lia | split; [lia |]].
  apply (pruning_equivalence 6 3 true (fresh kq_start)); lia.
Defined.

(** C2 on the position after Qg7 mate: a queen up in material, scored
    +10000. *)
Lemma terminal_scoring_witness :
  @results_agree tree_rules /\
  @outcome tree_rules after_Qg7 = Some {| termination := CHECKMATE; winner := Some WHITE |} /\
  @is_game_over tree_rules after_Qg7 = true /\
  @evaluate_board tree_rules after_Qg7 = 10000.
Proof.
  split; [exact tree_results_agree | split; [reflexivity |]].
  apply (@terminal_scoring tree_rules after_Qg7 {| termination := CHECKMATE; winner := Some WHITE |});
    [exact tree_results_agree | reflexivity].
Defined.

(** C3 as amended, at depth -2 on the king-and-queen ending, whose lines
    all end within three plies of the root moves. *)
Lemma nonpositive_depth_searches_witness :
  -2 <= 0 /\ (3 < 5)%nat /\
  forallb (fun mv => ends_within 3 (make (position (board (fresh kq_start))) mv))
          (legal_moves (position (board (fresh kq_start)))) = true /\
  minimax 6 0 NegInf PosInf true (fresh kq_start)
  = Ok (Fin (evaluate_board (position (board (fresh kq_start))))) (fresh kq_start)
  /\
  Forall (fun mv =>
            exists t,
              minimax 5 (-2 - 1) NegInf PosInf false (pushed_world (fresh kq_start) mv)
              = Ok (exhaustive 3 (make (position (board (fresh kq_start))) mv) false)
                   (journal (pushed_world (fresh kq_start) mv) t))
         (legal_moves (position (board (fresh kq_start))))
  /\
  (exists t,
      find_best_move 5 (-2) (fresh kq_start)
      = Ok (find_best_move_exhaustive 4 (position (board (fresh kq_start))))
           (journal (fresh kq_start) t)).
Proof.
  split; [lia | split; [lia | split; [reflexivity |]]].
  apply (nonpositive_depth_searches 5 3 (-2) NegInf PosInf true (fresh kq_start));
    [lia | lia | reflexivity].
Defined.

(** C3, a position where the claim fails.  White (Kh1) must take the queen
    on g1, which ends the game: at depth 0 nothing is raised,
    [find_best_move] makes the move, finds the game over and returns Kxg1,
    and [minimax] at depth 0 returns the material balance -9.  On the
    king-and-queen ending [find_best_move] at depth 0 searches to the end
    of every line and returns the mating move Qg7. *)
Lemma depth_zero_returns_move :
  returned (find_best_move 10 0 (fresh queen_en_prise)) = Some (Some Kxg1) /\
  raised (find_best_move 10 0 (fresh queen_en_prise)) = None /\
  returned (minimax 10 0 NegInf PosInf true (fresh queen_en_prise)) = Some (Fin (-9)) /\
  raised (minimax 10 0 NegInf PosInf true (fresh queen_en_prise)) = None /\
  returned (find_best_move 10 0 (fresh kq_start)) = Some (Some Qg7).
Proof. repeat split; vm_compute; reflexivity. Qed.

(** C4 as amended, on the drawn position with bare kings. *)
Lemma no_legal_move_none_witness :
  legal_moves (position (board (fresh bare_kings))) = [] /\
  find_best_move 6 4 (fresh bare_kings) = Ok None (fresh bare_kings).
Proof.
  split; [reflexivity |].
  apply (no_legal_move_none 6 4 (fresh bare_kings)). reflexivity.
Defined.

(** C4, a position where the claim fails: White has mated, Black has no
    legal move, and [find_best_move] returns [None] without raising. *)
Lemma no_legal_move_returns_none :
  legal_moves (position (board (fresh after_Qg7))) = [] /\
  find_best_move 6 4 (fresh after_Qg7) = Ok None (fresh after_Qg7) /\
  raised (find_best_move 6 4 (fresh after_Qg7)) = None.
Proof. repeat split; reflexivity. Qed.

(** C5 on the king-and-queen ending. *)
Lemma first_maximum_move_witness :
  @no_moves_is_over tree_rules /\
  legal_moves (position (board (fresh kq_start))) <> [] /\
  1 <= 3 /\ 3 <= Z.of_nat 5 /\
  exists (scores : list Score) (i : nat) (mv : Move) (s : Score) (t : list Op),
    Forall2 (fun m sc => returns (one_ply_score 5 3 m) (fresh kq_start) sc)
            (legal_moves (position (board (fresh kq_start)))) scores /\
    find_best_move 5 3 (fresh kq_start) = Ok (Some mv) (journal (fresh kq_start) t) /\
    legal_moves (position (board (fresh kq_start))) !! i = Some mv /\
    scores !! i = Some s /\
    (forall j sj, (j < i)%nat -> scores !! j = Some sj -> slt sj s) /\
    (forall j sj, scores !! j = Some sj -> sle sj s).
Proof.
  split; [exact tree_no_moves_is_over |].
  split; [discriminate | split; [lia | split; [lia |]]].
  apply (first_maximum_move 5 3 (fresh kq_start));
    [exact tree_no_moves_is_over | discriminate | lia | lia].
Defined.

(** C6, the failing input.  In the fool's mate position Black mates with
    Qh4: the outcome after the move is a checkmate won by Black, and the
    tier-3 hint says "Winning line!", not "Mate!".  The mate White gives
    with Qg7 in the king-and-queen ending is reported as "Mate!". *)
Theorem black_mate_reported_as_winning_line :
  outcome (make fools_mate Qh4)
  = Some {| termination := CHECKMATE; winner := Some BLACK |} /\
  generate_hint (Some Qh4) 3 (fresh fools_mate)
  = Ok "Solution: Qh4# (d8h4). Winning line!"
       (journal (fresh fools_mate) [OpPush Qh4; OpPop]) /\
  outcome (make kq_start Qg7)
  = Some {| termination := CHECKMATE; winner := Some WHITE |} /\
  generate_hint (Some Qg7) 3 (fresh kq_start)
  = Ok "Solution: Qg7# (b7g7). Mate!"
       (journal (fresh kq_start) [OpPush Qg7; OpPop]).
Proof. repeat split; reflexivity. Qed.

(** Outside C7: a search that runs out of nested calls raises with its
    moves still on the board, here Kh6 and Kf8. *)
Lemma recursion_error_leaves_moves_pushed :
  exists w',
    minimax 2 3 NegInf PosInf true (fresh kq_start) = Raise RecursionError w' /\
    position (board w') = after_Kf8 /\
    saved (board w') = [after_Kh6; kq_start] /\
    ops w' = [OpPush Kh6; OpPush Kf8].
Proof. eexists. repeat split; reflexivity. Qed.

(** C7 on the king-and-queen ending, with the tier-3 hint for Qg7. *)
Lemma position_restored_witness :
  0 <= 2 /\ 2 < Z.of_nat 5 /\
  (exists text,
      generate_hint (Some Qg7) 3 (fresh kq_start)
      = Ok text (journal (fresh kq_start) [OpPush Qg7; OpPop]))
  /\
  (exists v t,
      minimax 5 2 NegInf PosInf true (fresh kq_start)
      = Ok v (journal (fresh kq_start) t) /\ balanced t)
  /\
  (exists r t,
      find_best_move 5 (2 + 1) (fresh kq_start)
      = Ok r (journal (fresh kq_start) t) /\ balanced t).
Proof.
  split; [lia | split; [lia |]].
  apply (position_restored 5 2 3 NegInf PosInf true (Some Qg7) (fresh kq_start)); lia.
Defined.

(** C8 on the fool's mate position, where all thirty-two pieces stand. *)
Lemma material_scoring_witness :
  is_game_over fools_mate = false /\
  evaluate_board fools_mate
  = sum_Z (material <$> dict_values (piece_map fools_mate))
  /\
  evaluate_board fools_mate =
    1 * (count_pieces fools_mate PAWN WHITE - count_pieces fools_mate PAWN BLACK)
    + 3 * (count_pieces fools_mate KNIGHT WHITE - count_pieces fools_mate KNIGHT BLACK)
    + 3 * (count_pieces fools_mate BISHOP WHITE - count_pieces fools_mate BISHOP BLACK)
    + 5 * (count_pieces fools_mate ROOK WHITE - count_pieces fools_mate ROOK BLACK)
    + 9 * (count_pieces fools_mate QUEEN WHITE - count_pieces fools_mate QUEEN BLACK)
    + 0 * (count_pieces fools_mate KING WHITE - count_pieces fools_mate KING BLACK)
  /\
  (dict_get piece_values PAWN 0, dict_get piece_values KNIGHT 0,
   dict_get piece_values BISHOP 0, dict_get piece_values ROOK 0,
   dict_get piece_values QUEEN 0, dict_get piece_values KING 0)
  = (1, 3, 3, 5, 9, 0).
Proof.
  split; [reflexivity |].
  apply (@material_scoring tree_rules fools_mate). reflexivity.
Defined.

(** C9 on the king-and-queen ending and its mirror image. *)
Lemma material_symmetry_witness :
  @color_mirror tree_rules kq_start qk_start /\
  evaluate_board qk_start = - evaluate_board kq_start.
Proof.
  assert (Hmirror : @color_mirror tree_rules kq_start qk_start).
  { repeat split; vm_compute; reflexivity. }
  split; [exact Hmirror |].
  apply (@material_symmetry tree_rules kq_start qk_start). exact Hmirror.
Defined.

(** C10 at tier 0. *)
Lemma other_tiers_disclose_solution_witness :
  0 <> 1 /\ 0 <> 2 /\
  generate_hint (Some Qg7) 0 (fresh kq_start)
  = generate_hint (Some Qg7) 3 (fresh kq_start) /\
  generate_hint (Some Qg7) 0 (fresh kq_start)
  = Ok ("Solution: " +:+ san (position (board (fresh kq_start))) Qg7 +:+ " (" +:+
        uci Qg7 +:+ "). " +:+
        (if outcome_and_winner (outcome (make (position (board (fresh kq_start))) Qg7))
         then "Mate!" else "Winning line!"))
       (journal (fresh kq_start) [OpPush Qg7; OpPop]).
Proof.
  split; [lia | split; [lia |]].
  apply (other_tiers_disclose_solution (fresh kq_start) Qg7 0); lia.
Defined.

(* ===================================================================== *)
(** ** The further properties on concrete positions *)
(* ===================================================================== *)

(** X1 on the position after Kh6, Black to move, with the window (1, 5):
    the search returns 0, at or below the window, and the exhaustive value
    is at most that. *)
Lemma window_bounds_witness :
  0 <= 4 /\ 4 < Z.of_nat 6 /\ slt (Fin 1) (Fin 5) /\
  exists v t,
    minimax 6 4 (Fin 1) (Fin 5) false (fresh after_Kh6)
    = Ok v (journal (fresh after_Kh6) t) /\
    (slt (Fin 1) v -> slt v (Fin 5) ->
     v = exhaustive (Z.to_nat 4) (position (board (fresh after_Kh6))) false) /\
    (sle v (Fin 1) ->
     sle (exhaustive (Z.to_nat 4) (position (board (fresh after_Kh6))) false) v) /\
    (sle (Fin 5) v ->
     sle v (exhaustive (Z.to_nat 4) (position (board (fresh after_Kh6))) false)).
Proof.
  split; [lia | split; [lia | split; [cbn; lia |]]].
  apply (window_bounds 6 4 (Fin 1) (Fin 5) false (fresh after_Kh6)); [lia | lia | cbn; lia].
Defined.

(** X2 on the king-and-queen ending with an inverted window. *)
Lemma search_value_finite_witness :
  @no_moves_is_over tree_rules /\ 0 <= 3 /\ 3 < Z.of_nat 5 /\
  exists z t,
    minimax 5 3 PosInf NegInf true (fresh kq_start)
    = Ok (Fin z) (journal (fresh kq_start) t).
Proof.
  split; [exact tree_no_moves_is_over | split; [lia | split; [lia |]]].
  apply (search_value_finite 5 3 PosInf NegInf true (fresh kq_start));
    [exact tree_no_moves_is_over | lia | lia].
Defined.

(** X3 at the depths -1 and -7, and 0 and -3. *)
Lemma negative_depths_agree_witness :
  -1 < 0 /\ -7 < 0 /\ 0 <= 0 /\ -3 <= 0 /\
  minimax 8 (-1) NegInf PosInf true (fresh kq_start)
  = minimax 8 (-7) NegInf PosInf true (fresh kq_start) /\
  find_best_move 8 0 (fresh kq_start) = find_best_move 8 (-3) (fresh kq_start).
Proof.
  split; [lia | split; [lia | split; [lia | split; [lia |]]]].
  apply (negative_depths_agree 8 (-1) (-7) 0 (-3) NegInf PosInf true (fresh kq_start)); lia.
Defined.

Lemma kq_start_best_move :
  find_best_move 5 3 (fresh kq_start)
  = Ok (Some Qg7)
       (journal (fresh kq_start)
          [OpPush Kh6; OpPush Kf8; OpPush Qe7; OpPop; OpPop;
           OpPush Kh8; OpPush Qf7; OpPop; OpPush Qg7; OpPop; OpPop; OpPop;
           OpPush Qg7; OpPop]).
Proof. reflexivity. Qed.

(** X5 on the king-and-queen ending. *)
Lemma best_move_is_legal_witness :
  find_best_move 5 3 (fresh kq_start)
  = Ok (Some Qg7)
       (journal (fresh kq_start)
          [OpPush Kh6; OpPush Kf8; OpPush Qe7; OpPop; OpPop;
           OpPush Kh8; OpPush Qf7; OpPop; OpPush Qg7; OpPop; OpPop; OpPop;
           OpPush Qg7; OpPop]) /\
  Qg7 ∈ legal_moves (position (board (fresh kq_start))).
Proof.
  split; [exact kq_start_best_move |].
  apply (best_move_is_legal 5 3 (fresh kq_start) _ Qg7 kq_start_best_move).
Defined.

(** X6 on the king-and-queen ending. *)
Lemma root_value_is_score_of_best_move_witness :
  @no_moves_is_over tree_rules /\
  is_game_over (position (board (fresh kq_start))) = false /\
  1 <= 3 /\ 3 < Z.of_nat 5 /\
  exists mv s t1 t2,
    find_best_move 5 3 (fresh kq_start) = Ok (Some mv) (journal (fresh kq_start) t1) /\
    minimax 5 3 NegInf PosInf true (fresh kq_start) = Ok s (journal (fresh kq_start) t2) /\
    returns (one_ply_score 5 3 mv) (fresh kq_start) s.
Proof.
  split; [exact tree_no_moves_is_over | split; [reflexivity | split; [lia | split; [lia |]]]].
  apply (root_value_is_score_of_best_move 5 3 (fresh kq_start));
    [exact tree_no_moves_is_over | reflexivity | lia | lia].
Defined.



